(** * locust_test/locustfile_break_check.py

    A shallow embedding of the break-check load-test driver and the
    properties its specification states about it.

    The Python module has four parts, embedded below in the same order:
    - [save_results], the Locust [quitting] hook that writes the JSON report;
    - [LoadTestRunner._run_single_test], a coroutine that owns one Locust
      subprocess;
    - [LoadTestRunner.run_concurrent_tests], which gathers one such coroutine
      per distinct URL;
    - [run_break_test], the synchronous entry point.

    Python [str] values are held as Rocq strings of UTF-8 bytes.  All the
    patterns the module searches for are ASCII, and an ASCII byte never
    occurs inside a multi-byte UTF-8 sequence, so byte-wise search and
    replacement agree with Python's code-point-wise operations. *)

From Stdlib Require Import ZArith List String Ascii Bool Lia DecimalString Floats.
From Stdlib.Strings Require Import Byte.
Import ListNotations.
Open Scope string_scope.

(* ================================================================= *)
(** * Python built-ins used by the module *)

Module Py.

(** The exception classes that can reach the module's handlers.  What
    matters to [except Exception] is on which side of [Exception] a class
    sits: [CancelledError] (since Python 3.8) and [KeyboardInterrupt] derive
    from [BaseException] only. *)
Inductive exn : Type :=
| OSError (msg : string)
| UnicodeDecodeError (msg : string)
| UnboundLocalError (msg : string)
| TypeError (msg : string)
| OverflowError (msg : string)
| CancelledError
| KeyboardInterrupt.

Definition isinstance_Exception (e : exn) : bool :=
  match e with
  | CancelledError | KeyboardInterrupt => false
  | _ => true
  end.

(** [str(e)], as interpolated by the f-strings of the handlers. *)
Definition str_exn (e : exn) : string :=
  match e with
  | OSError m | UnicodeDecodeError m | UnboundLocalError m
  | TypeError m | OverflowError m => m
  | CancelledError | KeyboardInterrupt => ""
  end.

(** [str(n)] for an [int]. *)
Definition str_int (z : Z) : string := NilZero.string_of_int (Z.to_int z).

(** [str(x)] for an [Optional[int]]. *)
Definition str_optional_int (x : option Z) : string :=
  match x with
  | Some z => str_int z
  | None => "None"
  end.

(** [s.startswith(p)]. *)
Fixpoint startswith (p s : string) : bool :=
  match p, s with
  | EmptyString, _ => true
  | String _ _, EmptyString => false
  | String a p', String b s' => Ascii.eqb a b && startswith p' s'
  end.

(** [s.replace(old, new)] for a non-empty [old]: one pass from the left,
    replacing non-overlapping occurrences; text produced by a replacement is
    not scanned again.  [skip] counts the characters of a matched occurrence
    still to be dropped. *)
Fixpoint replace_from (old new : string) (skip : nat) (s : string) : string :=
  match s with
  | EmptyString => EmptyString
  | String c s' =>
      match skip with
      | S k => replace_from old new k s'
      | O =>
          if startswith old s
          then new ++ replace_from old new (String.length old - 1) s'
          else String c (replace_from old new 0 s')
      end
  end.

Definition str_replace (old new s : string) : string := replace_from old new 0 s.

(** The values the statistics attributes can hold: [int], [float] or
    [None]. *)
Inductive number : Type :=
| VInt (z : Z)
| VFloat (f : float)
| VNone.

(** [float(z)]: round to nearest even, [OverflowError] beyond the doubles. *)
Definition float_of_int (z : Z) : exn + float :=
  let f := SF2Prim (binary_normalize 53 1024 z 0 false) in
  if PrimFloat.is_infinity f
  then inl (OverflowError "int too large to convert to float")
  else inr f.

(** [a - b] on such values. *)
Definition sub (a b : number) : exn + number :=
  match a, b with
  | VInt x, VInt y => inr (VInt (x - y))
  | VFloat x, VFloat y => inr (VFloat (PrimFloat.sub x y))
  | VInt x, VFloat y =>
      match float_of_int x with
      | inl e => inl e
      | inr fx => inr (VFloat (PrimFloat.sub fx y))
      end
  | VFloat x, VInt y =>
      match float_of_int y with
      | inl e => inl e
      | inr fy => inr (VFloat (PrimFloat.sub x fy))
      end
  | _, _ => inl (TypeError "unsupported operand type(s) for -")
  end.

(** [x < 0] for a number (false for [None] and for NaN). *)
Definition is_negative (x : number) : bool :=
  match x with
  | VInt z => (z <? 0)%Z
  | VFloat f => PrimFloat.ltb f 0%float
  | VNone => false
  end.

(** [getattr(obj, name, default)] on an attribute that may be absent. *)
Definition getattr {A : Type} (attribute : option A) (default : A) : A :=
  match attribute with
  | Some v => v
  | None => default
  end.

(** [Path(dir) / name]: an absolute right operand replaces the left one. *)
Definition path_div (dir name : string) : string :=
  if startswith "/" name then name else dir ++ "/" ++ name.

(** An insertion-ordered [dict]. *)
Definition dict (K V : Type) : Type := list (K * V).

(** [d[k] = v] for a [str] key: an existing key keeps its position, a new
    key goes last. *)
Fixpoint dict_setitem {V : Type} (k : string) (v : V) (d : dict string V)
  : dict string V :=
  match d with
  | [] => [(k, v)]
  | (k', v') :: d' =>
      if String.eqb k' k then (k', v) :: d' else (k', v') :: dict_setitem k v d'
  end.

(** [dict.fromkeys(keys)]: every key mapped to [None], set in order. *)
Definition dict_fromkeys (keys : list string) : dict string unit :=
  fold_left (fun d k => dict_setitem k tt d) keys [].

(** [list(d)]: the keys, in insertion order. *)
Definition dict_keys {K V : Type} (d : dict K V) : list K := map fst d.

(** [d.values()]. *)
Definition dict_values {K V : Type} (d : dict K V) : list V := map snd d.

(** [xs.index(x)], [None] standing for [ValueError]. *)
Fixpoint index (x : string) (xs : list string) : option nat :=
  match xs with
  | [] => None
  | y :: ys =>
      if String.eqb y x then Some 0
      else match index x ys with
           | Some i => Some (S i)
           | None => None
           end
  end.

End Py.
Import Py.

(* ================================================================= *)
(** * The report writer: [save_results] (lines 31-69) *)

Module Report.

(** A Locust [StatsEntry], reduced to the attributes [save_results] reads.
    The two timestamps are read through [getattr] with a default, so their
    absence is part of the model. *)
Record StatsEntry : Type := {
  name : string;
  method : option string;
  num_requests : Z;
  num_failures : Z;
  median_response_time : number;
  avg_response_time : number;
  min_response_time : number;
  max_response_time : number;
  last_request_timestamp : option number;
  start_time : option number
}.

(** [environment.stats]: the aggregated entry and the per-endpoint ones,
    keyed by (name, method). *)
Record RequestStats : Type := {
  total : StatsEntry;
  entries : dict (string * string) StatsEntry
}.

Record Environment : Type := {
  host : string;
  stats : RequestStats
}.

(** One element of the report's ["stats"] array (lines 36-45). *)
Record StatRow : Type := {
  row_endpoint : string;
  row_method : option string;
  row_requests : Z;
  row_failures : Z;
  row_median_response_time : number;
  row_average_response_time : number;
  row_min_response_time : number;
  row_max_response_time : number
}.

(** The report dictionary (lines 47-59). *)
Record report : Type := {
  target_url : string;
  total_requests : Z;
  total_failures : Z;
  average_response_time : number;
  median_response_time_ : number;
  min_response_time_ : number;
  max_response_time_ : number;
  stats_ : list StatRow;
  timestamp : string;
  test_duration : number
}.

(** What a completed call leaves behind. *)
Record written : Type := {
  made_dir : string;         (* results_dir.mkdir(parents=True, exist_ok=True) *)
  filename : string;         (* the file opened for writing *)
  content : report;          (* what json.dump serialises into it *)
  announced : string         (* logger.info *)
}.

Definition stat_row (stat : StatsEntry) : StatRow :=
  {| row_endpoint := name stat;
     row_method := method stat;
     row_requests := num_requests stat;
     row_failures := num_failures stat;
     row_median_response_time := median_response_time stat;
     row_average_response_time := avg_response_time stat;
     row_min_response_time := min_response_time stat;
     row_max_response_time := max_response_time stat |}.

(** Lines 57-58. *)
Definition duration (total : StatsEntry) : exn + number :=
  sub (getattr (last_request_timestamp total) (VInt 0))
      (getattr (start_time total) (VInt 0)).

Definition results_dir : string := "performance_tests/break_check".

(** Line 64. *)
Definition url_part (host : string) : string :=
  str_replace "." "_"
    (str_replace "/" "_"
       (str_replace "http://" ""
          (str_replace "https://" "" host))).

(** Line 65. *)
Definition report_filename (host : string) : string :=
  path_div results_dir (url_part host ++ ".json").

(** [save_results(environment)]; [now] is [datetime.now().isoformat()]. *)
Definition save_results (environment : Environment) (now : string)
  : exn + written :=
  let stats := map stat_row (dict_values (entries (stats environment))) in
  let total := total (Report.stats environment) in
  match duration total with
  | inl e => inl e
  | inr d =>
      let report :=
        {| target_url := host environment;
           total_requests := num_requests total;
           total_failures := num_failures total;
           average_response_time := avg_response_time total;
           median_response_time_ := median_response_time total;
           min_response_time_ := min_response_time total;
           max_response_time_ := max_response_time total;
           stats_ := stats;
           timestamp := now;
           test_duration := d |} in
      let filename := report_filename (host environment) in
      inr {| made_dir := results_dir;
             filename := filename;
             content := report;
             announced := "Test results saved to " ++ filename |}
  end.

(** Modelled from the spec: the statistics are produced by the external
    load tool (Locust), which is not part of this repository.  The spec
    describes a report as the "aggregate of a single run" over "one row per
    logical endpoint observed during a run": the aggregated entry counts the
    requests of all the rows. *)
Definition aggregated (s : RequestStats) : Prop :=
  num_requests (total s) =
  fold_right Z.add 0%Z (map num_requests (dict_values (entries s))).

(** [s.removeprefix(p)]. *)
Fixpoint removeprefix (p s : string) : string :=
  match p, s with
  | EmptyString, _ => s
  | String a p', String b s' =>
      if (Ascii.eqb a b && startswith p' s')%bool then removeprefix p' s' else s
  | String _ _, EmptyString => s
  end.

Fixpoint map_chars (f : ascii -> ascii) (s : string) : string :=
  match s with
  | EmptyString => EmptyString
  | String c s' => String (f c) (map_chars f s')
  end.

Definition underscore (c : ascii) : ascii :=
  if (Ascii.eqb c "/" || Ascii.eqb c ".")%bool then "_"%char else c.

(** The sanitisation as the specification words it: the scheme prefix is
    stripped, then every slash and dot becomes an underscore. *)
Definition spec_sanitize (url : string) : string :=
  map_chars underscore (removeprefix "http://" (removeprefix "https://" url)).

(** [old in s]. *)
Fixpoint occurs (old s : string) : bool :=
  startswith old s ||
  match s with
  | EmptyString => false
  | String _ s' => occurs old s'
  end.

(** [c in s] for a single character. *)
Fixpoint has_char (c : ascii) (s : string) : bool :=
  match s with
  | EmptyString => false
  | String b s' => Ascii.eqb b c || has_char c s'
  end.

End Report.
Import Report.

(* ================================================================= *)
(** * The single-target runner: [_run_single_test] (lines 78-114) *)

Module Runner.

(** [sys.executable] and [__file__], fixed by the interpreter that loads
    the module. *)
Class Interpreter : Type := {
  sys_executable : string;
  __file__ : string
}.

Definition bytes : Type := list Byte.byte.

(** Strict UTF-8 well-formedness, as checked by [bytes.decode()].
    [pending] continuation bytes are still due, the next within [lo..hi]. *)
Fixpoint utf8_ok (pending : nat) (lo hi : N) (bs : bytes) : bool :=
  match bs with
  | [] => Nat.eqb pending 0
  | b :: bs' =>
      let n := Byte.to_N b in
      match pending with
      | S k => (lo <=? n)%N && (n <=? hi)%N && utf8_ok k 128 191 bs'
      | O =>
          if (n <? 128)%N then utf8_ok 0 128 191 bs'
          else if (n <? 194)%N then false
          else if (n <? 224)%N then utf8_ok 1 128 191 bs'
          else if (n =? 224)%N then utf8_ok 2 160 191 bs'
          else if (n =? 237)%N then utf8_ok 2 128 159 bs'
          else if (n <? 240)%N then utf8_ok 2 128 191 bs'
          else if (n =? 240)%N then utf8_ok 3 144 191 bs'
          else if (n <? 244)%N then utf8_ok 3 128 191 bs'
          else if (n =? 244)%N then utf8_ok 3 128 143 bs'
          else false
      end
  end.

(** [line.decode()].  The message of the error is abridged: Python also
    names the offending byte and its position. *)
Definition decode (line : bytes) : exn + string :=
  if utf8_ok 0 128 191 line
  then inr (string_of_list_byte line)
  else inl (UnicodeDecodeError "'utf-8' codec can't decode bytes")%string.

(** The characters [str.isspace] accepts, in UTF-8. *)
Definition whitespace : list string :=
  map string_of_list_byte
    [ [x09]; [x0a]; [x0b]; [x0c]; [x0d];
      [x1c]; [x1d]; [x1e]; [x1f]; [x20];
      [xc2; x85]; [xc2; xa0]; [xe1; x9a; x80];
      [xe2; x80; x80]; [xe2; x80; x81]; [xe2; x80; x82];
      [xe2; x80; x83]; [xe2; x80; x84]; [xe2; x80; x85];
      [xe2; x80; x86]; [xe2; x80; x87]; [xe2; x80; x88];
      [xe2; x80; x89]; [xe2; x80; x8a]; [xe2; x80; xa8];
      [xe2; x80; xa9]; [xe2; x80; xaf]; [xe2; x81; x9f];
      [xe3; x80; x80] ].

(** Length in bytes of the whitespace character [s] starts with, if any. *)
Definition space_width (s : string) : nat :=
  match find (fun w => startswith w s) whitespace with
  | Some w => String.length w
  | None => 0
  end.

Fixpoint lstrip_from (skip : nat) (s : string) : string :=
  match s with
  | EmptyString => EmptyString
  | String c s' =>
      match skip with
      | S k => lstrip_from k s'
      | O =>
          match space_width s with
          | S k => lstrip_from k s'
          | O => s
          end
      end
  end.

Definition lstrip (s : string) : string := lstrip_from 0 s.

Fixpoint rstrip (s : string) : string :=
  match s with
  | EmptyString => EmptyString
  | String c s' =>
      match lstrip s with
      | EmptyString => EmptyString
      | _ => String c (rstrip s')
      end
  end.

(** [s.strip()]. *)
Definition strip (s : string) : string := rstrip (lstrip s).

Inductive level : Type := INFO | ERROR.

(** What the coroutine does to the outside world, in program order. *)
Inductive effect : Type :=
| Spawn (cmd : list string)   (* create_subprocess_exec( *cmd, stdout=PIPE, stderr=PIPE) *)
| Readline                    (* process.stdout.readline() *)
| Wait                        (* process.wait() *)
| Terminate                   (* process.terminate() *)
| Log (lvl : level) (msg : string).

(** The [Process] object, of which the coroutine reads [returncode]. *)
Record Process : Type := { returncode : option Z }.

(** The [await] at which the coroutine is suspended, or its completion. *)
Inductive point : Type :=
| Launching                       (* line 93: await create_subprocess_exec *)
| Reading                         (* line 100: await process.stdout.readline() *)
| Waiting                         (* line 107: await process.wait() *)
| Reaping (pending : option exn)  (* line 114: await process.wait(), in [finally];
                                     [pending] is the exception in flight *)
| Finished (raised : option exn). (* returned [None], or raised *)

(** A call of [_run_single_test]: its arguments, the local [process]
    ([None] while unbound), where it stands and what it has done so far. *)
Record coroutine : Type := {
  url : string;
  users : Z;
  spawn_rate : Z;
  run_time : string;
  process : option Process;
  at_ : point;
  trace : list effect
}.

(** What the event loop does to a suspended coroutine. *)
Inductive event : Type :=
| Started               (* create_subprocess_exec returns the Process *)
| Line (data : bytes)   (* readline returns [data]; empty at end of file *)
| Exited (code : Z)     (* the child exits: returncode is set, a pending wait() returns it *)
| Throw (e : exn).      (* the pending await raises [e]: an I/O failure, or
                           CancelledError after Task.cancel() *)

Definition does (es : list effect) (c : coroutine) : coroutine :=
  {| url := url c; users := users c; spawn_rate := spawn_rate c;
     run_time := run_time c; process := process c; at_ := at_ c;
     trace := trace c ++ es |}.

Definition goto (p : point) (c : coroutine) : coroutine :=
  {| url := url c; users := users c; spawn_rate := spawn_rate c;
     run_time := run_time c; process := process c; at_ := p;
     trace := trace c |}.

Definition bind_process (p : Process) (c : coroutine) : coroutine :=
  {| url := url c; users := users c; spawn_rate := spawn_rate c;
     run_time := run_time c; process := Some p; at_ := at_ c;
     trace := trace c |}.

(** The error of reading a local that was never assigned (the wording of
    the message is that of Python 3.11 and later). *)
Definition unbound_process : exn :=
  UnboundLocalError
    "cannot access local variable 'process' where it is not associated with a value".

(** Lines 111-114.  [process] is first assigned by line 93, so reading it
    on line 112 fails when the launch itself did. *)
Definition finally_ (pending : option exn) (c : coroutine) : coroutine :=
  match process c with
  | None => goto (Finished (Some unbound_process)) c
  | Some p =>
      match returncode p with
      | None => goto (Reaping pending) (does [Terminate; Wait] c)
      | Some _ => goto (Finished pending) c
      end
  end.

(** Lines 109-110, then the [finally] block. *)
Definition except_ (e : exn) (c : coroutine) : coroutine :=
  if isinstance_Exception e
  then finally_ None
         (does [Log ERROR ("Error testing " ++ url c ++ ": " ++ str_exn e)] c)
  else finally_ (Some e) c.

(** Line 107: [wait()] does not suspend once the exit code is known. *)
Definition wait_ (c : coroutine) : coroutine :=
  match process c with
  | Some {| returncode := Some _ |} => finally_ None (does [Wait] c)
  | _ => goto Waiting (does [Wait] c)
  end.

(** Lines 101-105, on the line just read. *)
Definition on_line (data : bytes) (c : coroutine) : coroutine :=
  match data with
  | [] => wait_ c
  | _ =>
      match decode data with
      | inl e => except_ e c
      | inr s =>
          let text := strip s in
          match text with
          | EmptyString => goto Reading (does [Readline] c)
          | _ =>
              goto Reading
                (does [Log INFO ("[" ++ url c ++ "] " ++ text); Readline] c)
          end
      end
  end.

(** The child's exit, as the loop's child watcher records it. *)
Definition set_returncode (code : Z) (c : coroutine) : coroutine :=
  match process c with
  | Some {| returncode := None |} => bind_process {| returncode := Some code |} c
  | _ => c
  end.

Section WithInterpreter.
Context `{Interpreter}.

(** Lines 80-90. *)
Definition command (url : string) (users spawn_rate : Z) (run_time : string)
  : list string :=
  [ sys_executable; "-m"; "locust"; "-f"; __file__; "--headless";
    "-u"; str_int users; "-r"; str_int spawn_rate;
    "--run-time"; run_time; "--only-summary"; "--host"; url ].

(** The coroutine, run up to its first suspension on line 93. *)
Definition _run_single_test (url : string) (users spawn_rate : Z)
    (run_time : string) : coroutine :=
  {| url := url; users := users; spawn_rate := spawn_rate;
     run_time := run_time; process := None; at_ := Launching;
     trace := [Spawn (command url users spawn_rate run_time)] |}.

End WithInterpreter.

(** One resumption.  An event that does not answer the pending [await]
    is not delivered. *)
Definition resume (ev : event) (c : coroutine) : coroutine :=
  match at_ c, ev with
  | Launching, Started =>
      goto Reading (does [Readline] (bind_process {| returncode := None |} c))
  | Reading, Line data => on_line data c
  | Waiting, Exited code => finally_ None (set_returncode code c)
  | Reaping pending, Exited code => goto (Finished pending) (set_returncode code c)
  | (Launching | Reading | Waiting), Throw e => except_ e c
  | Reaping _, Throw e => goto (Finished (Some e)) c
  | _, Exited code => set_returncode code c
  | _, _ => c
  end.

Definition run (evs : list event) (c : coroutine) : coroutine :=
  fold_left (fun c ev => resume ev c) evs c.

Definition finished (c : coroutine) : bool :=
  match at_ c with
  | Finished _ => true
  | _ => false
  end.

(** ** Predicates on the coroutine *)

(** No [terminate()] so far. *)
Definition quiet (c : coroutine) : Prop := ~ In Terminate (trace c).

(** The coroutine stands inside the [try] statement of lines 92-107. *)
Definition in_try (c : coroutine) : bool :=
  match at_ c with
  | Launching | Reading | Waiting => true
  | _ => false
  end.

(** The last thing done was [terminate()], then [wait()]. *)
Definition reaped_last (c : coroutine) : Prop :=
  exists tr, trace c = (tr ++ [Terminate; Wait])%list.

(** What holds of the coroutine wherever it is suspended. *)
Definition consistent (c : coroutine) : Prop :=
  match at_ c, process c with
  | Launching, None => ~ In Terminate (trace c)
  | (Reading | Waiting), Some _ => ~ In Terminate (trace c)
  | Reaping pending, Some p =>
      returncode p = None /\ reaped_last c
      /\ (forall e, pending = Some e -> isinstance_Exception e = false)
  | Finished r, None => r = Some unbound_process /\ ~ In Terminate (trace c)
  | Finished r, Some p =>
      (returncode p = None -> reaped_last c /\ r <> None)
      /\ (In Terminate (trace c) -> reaped_last c)
      /\ (forall e, r = Some e ->
            isinstance_Exception e = false \/ reaped_last c)
  | _, _ => False
  end.

(** How the coroutine stands right after leaving the [try] statement:
    without a process when none was bound; signalled and waited for when
    its exit code was still unknown; finished and never signalled when the
    exit code was known. *)
Definition cleaned (c : coroutine) : Prop :=
  match process c with
  | None => at_ c = Finished (Some unbound_process)
  | Some {| returncode := None |} =>
      (exists pending, at_ c = Reaping pending) /\ reaped_last c
  | Some {| returncode := Some _ |} =>
      (exists r, at_ c = Finished r) /\ quiet c
  end.

End Runner.
Import Runner.

(* ================================================================= *)
(** * The orchestrator: [run_concurrent_tests] (lines 116-126) *)

Module Orchestrator.

Definition record : Type := (level * string)%type.

(** The coroutine suspended on line 126: its log, the tasks [gather]
    wrapped its arguments in, and the state of the gathering future
    ([None] pending, [Some None] returned, [Some (Some e)] raised [e]). *)
Record gathering : Type := {
  log : list record;
  tasks : list coroutine;
  gathered : option (option exn)
}.

(** Line 119. *)
Definition unique (urls : list string) : list string :=
  dict_keys (dict_fromkeys urls).

(** The de-duplication as the specification words it: the URLs in input
    order, each kept at its first occurrence only.  [seen] holds the URLs
    met so far. *)
Fixpoint first_seen (seen urls : list string) : list string :=
  match urls with
  | [] => []
  | u :: rest =>
      if existsb (String.eqb u) seen then first_seen seen rest
      else u :: first_seen (seen ++ [u]) rest
  end.

(** [gather] returns once every child has finished. *)
Definition settle (ts : list coroutine) : option (option exn) :=
  if forallb finished ts then Some None else None.

Section WithInterpreter.
Context `{Interpreter}.

Definition run_concurrent_tests (urls : list string) (users spawn_rate : Z)
    (run_time : string) : gathering :=
  let unique_urls := unique urls in
  let tasks :=
    map (fun url => _run_single_test url users spawn_rate run_time)
        unique_urls in
  {| log := [(INFO, "Starting concurrent tests for "
                    ++ str_int (Z.of_nat (List.length unique_urls))
                    ++ " URLs")];
     tasks := tasks;
     gathered := settle tasks |}.

End WithInterpreter.

Fixpoint resume_nth (i : nat) (ev : event) (ts : list coroutine)
  : list coroutine :=
  match ts, i with
  | [], _ => []
  | t :: ts', O => resume ev t :: ts'
  | t :: ts', S j => t :: resume_nth j ev ts'
  end.

(** The exception with which a task has just finished, if it has. *)
Definition raised_by (before after : coroutine) : option exn :=
  match at_ before, at_ after with
  | Finished _, _ => None
  | _, Finished (Some e) => Some e
  | _, _ => None
  end.

(** The loop resumes task [i] with [ev].  [gather] is called without
    [return_exceptions]: the first child to raise settles the gathering
    future with its exception at once, and the other children keep running. *)
Definition deliver (i : nat) (ev : event) (g : gathering) : gathering :=
  let ts := resume_nth i ev (tasks g) in
  {| log := log g;
     tasks := ts;
     gathered :=
       match gathered g with
       | Some r => Some r
       | None =>
           match nth_error (tasks g) i, nth_error ts i with
           | Some before, Some after =>
               match raised_by before after with
               | Some e => Some (Some e)
               | None => settle ts
               end
           | _, _ => None
           end
       end |}.

(** The order in which the loop resumes the tasks, and with what. *)
Definition schedule : Type := list (nat * event).

(** The loop runs until line 126 is settled. *)
Fixpoint until_gathered (sched : schedule) (g : gathering)
  : gathering * schedule :=
  match gathered g, sched with
  | Some _, _ => (g, sched)
  | None, [] => (g, [])
  | None, (i, ev) :: rest => until_gathered rest (deliver i ev g)
  end.

End Orchestrator.
Import Orchestrator.

(* ================================================================= *)
(** * The entry point: [run_break_test] (lines 128-148) *)

Module Entry.

(** [Task.cancel()].  A task suspended on [readline()] or [wait()] is
    resumed with [CancelledError].  A task whose launch is pending is not:
    [create_subprocess_exec] catches the cancellation, closes the transport
    and waits for the child, so the [CancelledError] reaches line 93 at a
    later resumption. *)
Definition cancel (t : coroutine) : coroutine :=
  if finished t then t
  else match at_ t with
       | Launching => t
       | _ => resume (Throw CancelledError) t
       end.

(** [Task.cancel()] on every task still running. *)
Definition cancel_all (ts : list coroutine) : list coroutine := map cancel ts.

(** What a cancelled task is resumed with.  A cancelled launch can only
    raise. *)
Definition as_cancelled (t : coroutine) (ev : event) : event :=
  match at_ t, ev with
  | Launching, Throw e => Throw e
  | Launching, _ => Throw CancelledError
  | _, _ => ev
  end.

(** The loop resumes task [i], which has been cancelled, with [ev]. *)
Fixpoint cancelled_nth (i : nat) (ev : event) (ts : list coroutine)
  : list coroutine :=
  match ts, i with
  | [], _ => []
  | t :: ts', O => resume (as_cancelled t ev) t :: ts'
  | t :: ts', S j => t :: cancelled_nth j ev ts'
  end.

(** The loop runs the cancelled tasks to completion; [false] when the
    schedule ends first. *)
Fixpoint shutdown (sched : schedule) (ts : list coroutine)
  : list coroutine * bool :=
  if forallb finished ts then (ts, true)
  else match sched with
       | [] => (ts, false)
       | (i, ev) :: rest => shutdown rest (cancelled_nth i ev ts)
       end.

(** [asyncio.run(main)] when no SIGINT arrives: run the loop until [main]
    is done, then cancel the tasks that remain and run them out, then hand
    over [main]'s result as it is.  The result is [None] while the call is
    still in progress at the end of the schedule. *)
Definition asyncio_run (main : gathering) (sched : schedule)
  : gathering * option (option exn) :=
  let (g, rest) := until_gathered sched main in
  match gathered g with
  | None => (g, None)
  | Some r =>
      let (ts, closed) := shutdown rest (cancel_all (tasks g)) in
      ({| log := log g; tasks := ts; gathered := gathered g |},
       if closed then Some r else None)
  end.

(** ** SIGINT (Python 3.11 and later)

    The first SIGINT cancels the main task, which is suspended on line
    126: the gathering future cancels every child still running, and is
    settled by the first child to finish, or with [CancelledError] once all
    have. *)

(** The exception of the first task that [cancel_all] made finish. *)
Fixpoint first_raised (before after : list coroutine) : option exn :=
  match before, after with
  | b :: bs, a :: as_ =>
      match raised_by b a with
      | Some e => Some e
      | None => first_raised bs as_
      end
  | _, _ => None
  end.

(** A gathering future that was cancelled raises [CancelledError] once
    every child has finished. *)
Definition settle_cancelled (ts : list coroutine) : option (option exn) :=
  if forallb finished ts then Some (Some CancelledError) else None.

(** [cancel()] on the gathering future of line 126. *)
Definition cancel_gather (g : gathering) : gathering :=
  let ts := cancel_all (tasks g) in
  {| log := log g;
     tasks := ts;
     gathered :=
       match gathered g with
       | Some r => Some r
       | None =>
           match first_raised (tasks g) ts with
           | Some e => Some (Some e)
           | None => settle_cancelled ts
           end
       end |}.

(** The loop resumes task [i] of the cancelled gathering with [ev]. *)
Definition deliver_cancelled (i : nat) (ev : event) (g : gathering)
  : gathering :=
  let ts := cancelled_nth i ev (tasks g) in
  {| log := log g;
     tasks := ts;
     gathered :=
       match gathered g with
       | Some r => Some r
       | None =>
           match nth_error (tasks g) i, nth_error ts i with
           | Some before, Some after =>
               match raised_by before after with
               | Some e => Some (Some e)
               | None => settle_cancelled ts
               end
           | _, _ => None
           end
       end |}.

Fixpoint until_gathered_cancelled (sched : schedule) (g : gathering)
  : gathering * schedule :=
  match gathered g, sched with
  | Some _, _ => (g, sched)
  | None, [] => (g, [])
  | None, (i, ev) :: rest => until_gathered_cancelled rest (deliver_cancelled i ev g)
  end.

(** What [asyncio.run] raises for the exception of an interrupted [main]:
    a [CancelledError] becomes [KeyboardInterrupt]. *)
Definition interrupted (r : option exn) : option exn :=
  match r with
  | Some CancelledError => Some KeyboardInterrupt
  | _ => r
  end.

(** [asyncio.run(main)] when SIGINT arrives after [k] resumptions and finds
    line 126 pending.  (A signal that finds it settled comes after the main
    task is done; that case is not part of the model and is given as the
    run without signal.) *)
Definition asyncio_run_interrupted (k : nat) (main : gathering)
    (sched : schedule) : gathering * option (option exn) :=
  let (g1, _) := until_gathered (firstn k sched) main in
  match gathered g1 with
  | Some _ => asyncio_run main sched
  | None =>
      let (g, rest) :=
        until_gathered_cancelled (skipn k sched) (cancel_gather g1) in
      match gathered g with
      | None => (g, None)
      | Some r =>
          let (ts, closed) := shutdown rest (cancel_all (tasks g)) in
          ({| log := log g; tasks := ts; gathered := gathered g |},
           if closed then Some (interrupted r) else None)
      end
  end.

(** [asyncio.run(main)], [sigint] telling whether and when the signal
    arrives. *)
Definition asyncio_run_on (sigint : option nat) (main : gathering)
    (sched : schedule) : gathering * option (option exn) :=
  match sigint with
  | None => asyncio_run main sched
  | Some k => asyncio_run_interrupted k main sched
  end.

(** What surrounds a call of [run_break_test]: how the file system answers
    [Path.mkdir(parents=True, exist_ok=True)] ([None] when the directory is
    there afterwards, the exception otherwise), and whether and when SIGINT
    arrives. *)
Record world : Type := {
  mkdir : string -> option exn;
  sigint : option nat
}.

(** The directories can be made and no signal arrives. *)
Definition undisturbed : world :=
  {| mkdir := fun _ => None; sigint := None |}.

(** [LoadTestRunner(base_dir)] (lines 74-76): the base directory, once
    made. *)
Definition LoadTestRunner (w : world) (base_dir : string) : exn + string :=
  match mkdir w base_dir with
  | Some e => inl e
  | None => inr base_dir
  end.

(** What a call of [run_break_test] amounts to: whether and how it has
    returned, what it and the orchestrator logged, the directories
    [LoadTestRunner()] made, and the orchestrator it drove, if any. *)
Record outcome : Type := {
  returned : option (option exn);
  logged : list record;
  base_dirs : list string;
  orchestrator : option gathering
}.

Section WithInterpreter.
Context `{Interpreter}.

(** [run_break_test(urls, run_time)] in the world [w].  Line 135 stands
    before the [try] statement: what [LoadTestRunner()] raises goes to the
    caller. *)
Definition run_break_test_on (w : world) (urls : list string)
    (run_time : option Z) (sched : schedule) : outcome :=
  match urls with
  | [] =>
      {| returned := Some None;
         logged := [(ERROR, "No URLs provided")];
         base_dirs := [];
         orchestrator := None |}
  | _ :: _ =>
      let run_time_str := str_optional_int run_time in
      match LoadTestRunner w "performance_tests" with
      | inl e =>
          {| returned := Some (Some e);
             logged := [];
             base_dirs := [];
             orchestrator := None |}
      | inr base_dir =>
          let (g, result) :=
            asyncio_run_on (sigint w)
              (run_concurrent_tests urls 1000 1000 run_time_str) sched in
          let finish returned records :=
            {| returned := returned;
               logged := log g ++ records;
               base_dirs := [base_dir];
               orchestrator := Some g |} in
          match result with
          | None => finish None []
          | Some None =>
              finish (Some None) [(INFO, "Load tests completed successfully")]
          | Some (Some KeyboardInterrupt) =>
              finish (Some None) [(INFO, "Tests interrupted by user")]
          | Some (Some e) =>
              if isinstance_Exception e
              then finish (Some None)
                     [(ERROR, "Tests failed with error: " ++ str_exn e)]
              else finish (Some (Some e)) []
          end
      end
  end.

(** [run_break_test(urls, run_time)] where the base directory can be made
    and no signal arrives: the call as it launches and drives the tests. *)
Definition run_break_test (urls : list string) (run_time : option Z)
    (sched : schedule) : outcome :=
  run_break_test_on undisturbed urls run_time sched.

End WithInterpreter.

(** The commands a coroutine has handed to [create_subprocess_exec]. *)
Fixpoint spawned (tr : list effect) : list (list string) :=
  match tr with
  | [] => []
  | Spawn cmd :: tr' => cmd :: spawned tr'
  | _ :: tr' => spawned tr'
  end.

(** What identifies a call of [_run_single_test] throughout its life: its
    arguments and the commands it has launched. *)
Definition call (c : coroutine)
  : string * Z * Z * string * list (list string) :=
  (url c, users c, spawn_rate c, run_time c, spawned (trace c)).

(** Every subprocess launch a call has made. *)
Definition launches (o : outcome) : list (list string) :=
  match orchestrator o with
  | None => []
  | Some g => flat_map (fun t => spawned (trace t)) (tasks g)
  end.

End Entry.
Import Entry.


(* ================================================================= *)
(** * What a run shows *)

Module Observe.

(** The [terminate()] calls of a trace. *)
Fixpoint terminations (tr : list effect) : nat :=
  match tr with
  | [] => 0
  | Terminate :: tr' => S (terminations tr')
  | _ :: tr' => terminations tr'
  end.

(** The messages of [logger.info], in order. *)
Fixpoint info_messages (tr : list effect) : list string :=
  match tr with
  | [] => []
  | Log INFO m :: tr' => m :: info_messages tr'
  | _ :: tr' => info_messages tr'
  end.

(** The messages of [logger.error], in order. *)
Fixpoint error_messages (tr : list effect) : list string :=
  match tr with
  | [] => []
  | Log ERROR m :: tr' => m :: error_messages tr'
  | _ :: tr' => error_messages tr'
  end.

(** A line of output, not the end of the stream, that [decode] accepts. *)
Definition is_line (data : bytes) : bool :=
  match data with
  | [] => false
  | _ => match decode data with
         | inr _ => true
         | inl _ => false
         end
  end.

(** What lines 103-105 log for one line of output. *)
Definition echo (url : string) (data : bytes) : list string :=
  match decode data with
  | inr s =>
      match strip s with
      | EmptyString => []
      | text => ["[" ++ url ++ "] " ++ text]
      end
  | inl _ => []
  end.

Definition is_throw (ev : event) : bool :=
  match ev with
  | Throw _ => true
  | _ => false
  end.

(** An event, the value of an exit code left aside. *)
Definition forget_code (ev : event) : event :=
  match ev with
  | Exited _ => Exited 0
  | _ => ev
  end.

(** A coroutine, the value of a known exit code left aside. *)
Definition anonymous (c : coroutine) : coroutine :=
  match process c with
  | Some {| returncode := Some _ |} => bind_process {| returncode := Some 0%Z |} c
  | _ => c
  end.

(** No exception is in flight and none has been raised. *)
Definition returning (c : coroutine) : Prop :=
  match at_ c with
  | Reaping (Some _) | Finished (Some _) => False
  | _ => True
  end.

(** The signal is counted: none inside the [try] statement, one at most
    afterwards. *)
Definition counted (c : coroutine) : Prop :=
  if in_try c then terminations (trace c) = 0 else terminations (trace c) <= 1.

(** A coroutine that is consistent and has raised nothing. *)
Definition calm (c : coroutine) : Prop := consistent c /\ returning c.


(** The coroutine has raised. *)
Definition raised (c : coroutine) : bool :=
  match at_ c with
  | Finished (Some _) => true
  | _ => false
  end.

(** The gathering future agrees with the tasks: pending, none has raised;
    returned, all have returned. *)
Definition agreed (g : gathering) : Prop :=
  match gathered g with
  | None => Forall (fun t => raised t = false) (tasks g)
  | Some None => Forall (fun t => at_ t = Finished None) (tasks g)
  | Some (Some _) => True
  end.

(** The event loop raises nothing into the tasks. *)
Definition throws_nothing (sched : schedule) : bool :=
  forallb (fun s => negb (is_throw (snd s))) sched.

End Observe.
Import Observe.

(* ================================================================= *)
(** * Fixtures for the examples *)

Definition cpython : Interpreter :=
  {| sys_executable := "/usr/bin/python3";
     __file__ := "locust_test/locustfile_break_check.py" |}.

Definition entry (n m : string) (requests failures : Z) : StatsEntry :=
  {| name := n; method := Some m;
     num_requests := requests; num_failures := failures;
     median_response_time := VInt 120; avg_response_time := VFloat 131.5;
     min_response_time := VFloat 80.25; max_response_time := VFloat 912;
     last_request_timestamp := Some (VFloat 1700000030.25);
     start_time := Some (VFloat 1700000000.5) |}.

(** A run that saw two endpoints. *)
Definition two_endpoints : Environment :=
  {| host := "https://example.com";
     stats :=
       {| total :=
            {| name := "Aggregated"; method := None;
               num_requests := 7; num_failures := 1;
               median_response_time := VInt 120;
               avg_response_time := VFloat 131.5;
               min_response_time := VFloat 80.25;
               max_response_time := VFloat 912;
               last_request_timestamp := Some (VFloat 1700000030.25);
               start_time := Some (VFloat 1700000000.5) |};
          entries :=
            [ (("/", "GET"), entry "/" "GET" 4 0);
              (("/login", "GET"), entry "/login" "GET" 3 1) ] |} |}.

(** Some output of a subprocess: two lines of text around a blank one. *)
Definition sample_lines : list bytes :=
  [ list_byte_of_string "  GET / 200  ";
    list_byte_of_string "   ";
    list_byte_of_string "done" ].

(** A byte that starts no UTF-8 sequence. *)
Definition not_utf8 : bytes := [xff].

Definition two_urls : list string :=
  ["https://a.example"; "https://b.example"].

(** Both subprocesses start, close their output and exit, the first with
    an error status. *)
Definition both_exit : schedule :=
  [ (0, Started); (1, Started); (0, Line []); (0, Exited 1);
    (1, Line []); (1, Exited 0) ].

(** A file system on which the base directory cannot be made. *)
Definition read_only : world :=
  {| mkdir := fun dir =>
       Some (OSError ("[Errno 13] Permission denied: '" ++ dir ++ "'"));
     sigint := None |}.

(** SIGINT arrives after the second resumption. *)
Definition interrupted_after_two : world :=
  {| mkdir := fun _ => None; sigint := Some 2 |}.

(** An aggregated entry on which neither timestamp, only the start, or
    only the last request is recorded. *)
Definition bare_total (last start : option number) : Environment :=
  {| host := "https://example.com";
     stats :=
       {| total :=
            {| name := "Aggregated"; method := None;
               num_requests := 0; num_failures := 0;
               median_response_time := VInt 0;
               avg_response_time := VFloat 0;
               min_response_time := VNone;
               max_response_time := VInt 0;
               last_request_timestamp := last;
               start_time := start |};
          entries := [] |} |}.

(* ================================================================= *)
(** * Strings *)

Section Strings.

#[local] Arguments Ascii.eqb : simpl never.

Lemma length_append (a b : string) :
  String.length (a ++ b) = String.length a + String.length b.
Proof. induction a as [|c a IH]; simpl; [reflexivity | now rewrite IH]. Qed.

Lemma append_cancel_r (s a b : string) : a ++ s = b ++ s -> a = b.
Proof.
  revert b; induction a as [|c a IH]; intros [|d b] E; simpl in E.
  - reflexivity.
  - apply (f_equal String.length) in E; simpl in E.
    rewrite length_append in E; lia.
  - apply (f_equal String.length) in E; simpl in E.
    rewrite length_append in E; lia.
  - injection E as -> E. now rewrite (IH _ E).
Qed.

Lemma has_char_append (c : ascii) (a b : string) :
  has_char c (a ++ b) = has_char c a || has_char c b.
Proof.
  induction a as [|d a IH]; simpl; [reflexivity|].
  now rewrite IH, orb_assoc.
Qed.

(** Replacing a single character is a character-wise map. *)
Lemma replace_char (a b : ascii) (s : string) :
  str_replace (String a "") (String b "") s
  = map_chars (fun c => if Ascii.eqb a c then b else c) s.
Proof.
  unfold str_replace.
  induction s as [|c s IH]; simpl; [reflexivity|].
  rewrite andb_true_r. destruct (Ascii.eqb a c); simpl; now rewrite IH.
Qed.

Lemma map_chars_compose (f g : ascii -> ascii) (s : string) :
  map_chars f (map_chars g s) = map_chars (fun c => f (g c)) s.
Proof. induction s as [|c s IH]; simpl; [reflexivity | now rewrite IH]. Qed.

Lemma map_chars_ext (f g : ascii -> ascii) (s : string) :
  (forall c, f c = g c) -> map_chars f s = map_chars g s.
Proof.
  intros E; induction s as [|c s IH]; simpl; [reflexivity | now rewrite E, IH].
Qed.

(** Line 64, seen as two deletions followed by a character-wise map. *)
Lemma url_part_map (h : string) :
  url_part h
  = map_chars underscore (str_replace "http://" "" (str_replace "https://" "" h)).
Proof.
  unfold url_part. rewrite !replace_char, map_chars_compose.
  apply map_chars_ext; intros c. unfold underscore.
  destruct (Ascii.eqb_spec "/" c) as [<-|N1]; [reflexivity|].
  destruct (Ascii.eqb_spec c "/") as [->|_]; [congruence|].
  simpl. now rewrite (Ascii.eqb_sym c ".").
Qed.

Lemma underscore_not_slash (c : ascii) : Ascii.eqb (underscore c) "/" = false.
Proof.
  unfold underscore. destruct (Ascii.eqb c "/") eqn:E; simpl; [reflexivity|].
  destruct (Ascii.eqb c "."); [reflexivity | exact E].
Qed.

Lemma underscore_no_slash (s : string) :
  has_char "/" (map_chars underscore s) = false.
Proof.
  induction s as [|c s IH]; simpl; [reflexivity|].
  now rewrite underscore_not_slash, IH.
Qed.

(** The file name is never absolute, so [Path.__truediv__] appends it. *)
Lemma report_filename_joined (h : string) :
  report_filename h = results_dir ++ "/" ++ url_part h ++ ".json".
Proof.
  unfold report_filename, path_div.
  assert (N : has_char "/" (url_part h) = false)
    by (rewrite url_part_map; apply underscore_no_slash).
  destruct (url_part h) as [|c u]; simpl in *; [reflexivity|].
  apply orb_false_iff in N as [N _].
  now rewrite (Ascii.eqb_sym "/" c), N.
Qed.

(** Where [old] does not occur, [replace] changes nothing. *)
Lemma replace_absent (old new s : string) :
  occurs old s = false -> str_replace old new s = s.
Proof.
  unfold str_replace.
  induction s as [|c s IH]; simpl; intros O; [reflexivity|].
  apply orb_false_iff in O as [P O].
  destruct old as [|a old]; [discriminate|].
  rewrite P. now rewrite IH.
Qed.

Lemma startswith_has_char (c : ascii) (p s : string) :
  startswith p s = true -> has_char c p = true -> has_char c s = true.
Proof.
  revert s; induction p as [|a p IH]; intros [|b s]; simpl; try discriminate.
  intros P C. apply andb_true_iff in P as [E P].
  apply Ascii.eqb_eq in E as <-.
  apply orb_true_iff in C as [C|C]; apply orb_true_iff; [now left|].
  right; now apply IH.
Qed.

(** A string in which [old] occurs holds each of its characters. *)
Lemma occurs_has_char (c : ascii) (old s : string) :
  has_char c old = true -> occurs old s = true -> has_char c s = true.
Proof.
  intros C. induction s as [|b s IH]; simpl; intros O.
  - destruct old; simpl in *; discriminate.
  - apply orb_true_iff in O as [P|O].
    + exact (startswith_has_char c old (String b s) P C).
    + apply orb_true_iff; right; now apply IH.
Qed.

Lemma no_slash_no_scheme (s : string) :
  has_char "/" s = false ->
  occurs "https://" s = false /\ occurs "http://" s = false.
Proof.
  intros N; split.
  - destruct (occurs "https://" s) eqn:O; [|reflexivity].
    now rewrite (occurs_has_char "/" "https://" s eq_refl O) in N.
  - destruct (occurs "http://" s) eqn:O; [|reflexivity].
    now rewrite (occurs_has_char "/" "http://" s eq_refl O) in N.
Qed.

(** On a URL that carries at most a leading scheme, line 64 strips that
    prefix and maps the rest. *)
Lemma url_part_scheme (scheme rest : string) :
  In scheme ["https://"; "http://"; ""] ->
  occurs "https://" rest = false -> occurs "http://" rest = false ->
  url_part (scheme ++ rest) = map_chars underscore rest.
Proof.
  intros S O1 O2. rewrite url_part_map. f_equal.
  destruct S as [<-|[<-|[<-|[]]]].
  - change (str_replace "https://" "" ("https://" ++ rest))
      with (str_replace "https://" "" rest).
    rewrite (replace_absent "https://" "" rest O1).
    exact (replace_absent "http://" "" rest O2).
  - rewrite (replace_absent "https://" "" ("http://" ++ rest) O1).
    change (str_replace "http://" "" ("http://" ++ rest))
      with (str_replace "http://" "" rest).
    exact (replace_absent "http://" "" rest O2).
  - change ("" ++ rest) with rest.
    rewrite (replace_absent "https://" "" rest O1).
    exact (replace_absent "http://" "" rest O2).
Qed.

Lemma occurs_head (old s : string) :
  occurs old s = false -> startswith old s = false.
Proof.
  destruct s; simpl; intros O; now apply orb_false_iff in O as [? _].
Qed.

Lemma removeprefix_absent (p s : string) :
  startswith p s = false -> removeprefix p s = s.
Proof.
  destruct p as [|a p], s as [|b s]; simpl; intros P; try reflexivity.
  now rewrite P.
Qed.

Lemma removeprefix_scheme (scheme rest : string) :
  In scheme ["https://"; "http://"; ""] ->
  occurs "https://" rest = false -> occurs "http://" rest = false ->
  spec_sanitize (scheme ++ rest) = map_chars underscore rest.
Proof.
  intros S O1 O2. unfold spec_sanitize. f_equal.
  destruct S as [<-|[<-|[<-|[]]]].
  - change (removeprefix "https://" ("https://" ++ rest)) with rest.
    apply removeprefix_absent, occurs_head, O2.
  - change (removeprefix "https://" ("http://" ++ rest))
      with ("http://" ++ rest).
    reflexivity.
  - change ("" ++ rest) with rest.
    rewrite (removeprefix_absent "https://" rest (occurs_head _ _ O1)).
    apply removeprefix_absent, occurs_head, O2.
Qed.

(** [underscore] loses nothing on strings free of slashes and
    underscores. *)
Lemma underscore_injective (a b : string) :
  has_char "/" a = false -> has_char "_" a = false ->
  has_char "/" b = false -> has_char "_" b = false ->
  map_chars underscore a = map_chars underscore b -> a = b.
Proof.
  revert b; induction a as [|c a IH]; intros [|d b]; simpl; try discriminate;
    [reflexivity|].
  intros S1 U1 S2 U2 E.
  apply orb_false_iff in S1 as [Sc S1]; apply orb_false_iff in U1 as [Uc U1].
  apply orb_false_iff in S2 as [Sd S2]; apply orb_false_iff in U2 as [Ud U2].
  injection E as Ec E. f_equal; [|now apply IH].
  unfold underscore in Ec. rewrite Sc, Sd in Ec; simpl in Ec.
  destruct (Ascii.eqb_spec c "."), (Ascii.eqb_spec d "."); subst;
    try reflexivity.
  - now rewrite Ascii.eqb_refl in Ud.
  - now rewrite Ascii.eqb_refl in Uc.
Qed.

End Strings.

(* ================================================================= *)
(** * The report writer *)

Section ReportWriter.

Lemma save_results_filename (environment : Environment) (now : string) :
  match save_results environment now with
  | inr w =>
      filename w = report_filename (host environment)
      /\ made_dir w = "performance_tests/break_check"
  | inl _ => True
  end.
Proof.
  unfold save_results. destruct (duration _); simpl; [exact I | now split].
Qed.

(** C6, as the specification states it, fails: line 64 deletes the two
    scheme strings wherever they occur, not only in front.  A URL that
    carries a second URL in its query is written to another file than the
    prefix-stripping rule names. *)
Lemma scheme_deleted_inside_url :
  report_filename "http://example.com/?next=https://example.org"
  = "performance_tests/break_check/example_com_?next=example_org.json"
  /\ spec_sanitize "http://example.com/?next=https://example.org"
     = "example_com_?next=https:__example_org"
  /\ url_part "http://example.com/?next=https://example.org"
     <> spec_sanitize "http://example.com/?next=https://example.org".
Proof. repeat split; try reflexivity. discriminate. Qed.

(** C6, amended: the report of a run against [host] is written to
    [performance_tests/break_check/<sanitized>.json], where the sanitised
    name is [host] with every occurrence of [https://] deleted, then every
    occurrence of [http://] deleted (one left-to-right pass each), then
    every [/] and [.] turned into [_].  For a URL whose only scheme string
    is a prefix this is the prefix-stripping rule of the specification, and
    [https://example.com] is written to [example_com.json]. *)
Theorem report_path_sanitized (environment : Environment) (now : string) :
  let h := host environment in
  match save_results environment now with
  | inr w => filename w = report_filename h
  | inl _ => True
  end
  /\ report_filename h
     = "performance_tests/break_check/"
       ++ map_chars underscore
            (str_replace "http://" "" (str_replace "https://" "" h))
       ++ ".json"
  /\ (forall scheme rest,
        In scheme ["https://"; "http://"; ""] ->
        occurs "https://" rest = false -> occurs "http://" rest = false ->
        h = scheme ++ rest ->
        report_filename h
        = "performance_tests/break_check/" ++ spec_sanitize h ++ ".json")
  /\ report_filename "https://example.com"
     = "performance_tests/break_check/example_com.json".
Proof.
  intros h. repeat split.
  - generalize (save_results_filename environment now).
    destruct (save_results environment now); [trivial | now intros [? _]].
  - now rewrite report_filename_joined, url_part_map.
  - intros scheme rest S O1 O2 ->.
    rewrite report_filename_joined, url_part_scheme by assumption.
    now rewrite removeprefix_scheme by assumption.
Qed.

Lemma report_path_sanitized_witness :
  report_filename "https://example.com/health"
  = "performance_tests/break_check/"
    ++ spec_sanitize "https://example.com/health" ++ ".json".
Proof.
  pose (e := {| host := "https://example.com/health";
                stats := stats two_endpoints |}).
  apply (proj1 (proj2 (proj2 (report_path_sanitized e "t"))))
    with (scheme := "https://") (rest := "example.com/health").
  - simpl; auto.
  - reflexivity.
  - reflexivity.
  - reflexivity.
Defined.

(** C7, as the specification states it, fails: two distinct URLs can be
    written to the same file.  The scheme is dropped, so the plain and the
    TLS address of one site collide. *)
Lemma filenames_collide :
  ~ (forall u v : string, u <> v -> report_filename u <> report_filename v).
Proof.
  intros H.
  apply (H "http://example.com" "https://example.com");
    [discriminate | reflexivity].
Qed.

(** C7, amended: the file name is a function of the URL, so equal URLs are
    written to the same file and a repeated run overwrites it.  Distinct
    URLs are kept apart when they share their scheme prefix and the rest of
    neither contains [/] or [_]; beyond that the name can collide. *)
Theorem report_filename_deterministic (scheme a b : string) :
  (forall u v : string, u = v -> report_filename u = report_filename v)
  /\ (In scheme ["https://"; "http://"; ""] ->
      has_char "/" a = false -> has_char "_" a = false ->
      has_char "/" b = false -> has_char "_" b = false ->
      report_filename (scheme ++ a) = report_filename (scheme ++ b) ->
      a = b).
Proof.
  split; [now intros u v -> |].
  intros S Sa Ua Sb Ub E.
  destruct (no_slash_no_scheme a Sa) as [A1 A2].
  destruct (no_slash_no_scheme b Sb) as [B1 B2].
  rewrite !report_filename_joined in E.
  rewrite (url_part_scheme scheme a S A1 A2) in E.
  rewrite (url_part_scheme scheme b S B1 B2) in E.
  unfold results_dir in E. simpl in E.
  repeat match type of E with String _ _ = String _ _ => injection E as E end.
  apply append_cancel_r in E.
  now apply underscore_injective.
Qed.

Lemma report_filename_deterministic_witness :
  report_filename ("https://" ++ "example.com")
  = report_filename ("https://" ++ "example.com")
  /\ "example.com" = "example.com".
Proof.
  split.
  - now apply (proj1 (report_filename_deterministic "https://"
                        "example.com" "example.com")).
  - apply (proj2 (report_filename_deterministic "https://"
                    "example.com" "example.com")).
    + simpl; auto.
    + reflexivity.
    + reflexivity.
    + reflexivity.
    + reflexivity.
    + reflexivity.
Defined.

Lemma rows_requests (es : list StatsEntry) :
  map row_requests (map stat_row es) = map num_requests es.
Proof. induction es as [|e es IH]; simpl; [reflexivity | now rewrite IH]. Qed.

(** C8: in a report written from statistics whose aggregated entry counts
    the requests of all the per-endpoint entries (as the load tool keeps
    them), [total_requests] is the sum of the [requests] of the rows of
    [stats]: the writer copies the aggregate's counter, and one row per
    entry with that entry's counter. *)
Theorem total_requests_is_sum (environment : Environment) (now : string)
    (w : written) :
  aggregated (stats environment) ->
  save_results environment now = inr w ->
  total_requests (content w)
  = fold_right Z.add 0%Z (map row_requests (stats_ (content w))).
Proof.
  unfold aggregated, save_results. intros A.
  destruct (duration _); [discriminate|].
  intros [= <-]; simpl. now rewrite rows_requests.
Qed.

Lemma total_requests_is_sum_witness :
  exists w,
    save_results two_endpoints "2026-01-01T00:00:00" = inr w
    /\ total_requests (content w) = 7%Z
    /\ total_requests (content w)
       = fold_right Z.add 0%Z (map row_requests (stats_ (content w))).
Proof.
  eexists; split; [reflexivity|]. split; [reflexivity|].
  apply (total_requests_is_sum two_endpoints "2026-01-01T00:00:00");
    reflexivity.
Defined.

(** C9: [test_duration] is the last-request timestamp minus the start time
    of the aggregated entry, each read as 0 when the attribute is absent.
    With both absent the written value is exactly 0; with only the last
    timestamp absent it is 0 minus the start time, which is negative for the
    start time of a real run. *)
Theorem test_duration_defaults (environment : Environment) (now : string) :
  let t := total (stats environment) in
  let read := fun attribute : option number => getattr attribute (VInt 0) in
  match save_results environment now with
  | inr w =>
      sub (read (last_request_timestamp t)) (read (start_time t))
      = inr (test_duration (content w))
  | inl e =>
      sub (read (last_request_timestamp t)) (read (start_time t)) = inl e
  end
  /\ (last_request_timestamp t = None -> start_time t = None ->
      exists w, save_results environment now = inr w
                /\ test_duration (content w) = VInt 0)
  /\ (forall z, last_request_timestamp t = None ->
                start_time t = Some (VInt z) ->
      exists w, save_results environment now = inr w
                /\ test_duration (content w) = VInt (- z))
  /\ (forall f, last_request_timestamp t = None ->
                start_time t = Some (VFloat f) ->
      exists w, save_results environment now = inr w
                /\ test_duration (content w) = VFloat (0 - f))
  /\ (exists w,
        save_results (bare_total None (Some (VFloat 1700000000.5))) now = inr w
        /\ is_negative (test_duration (content w)) = true).
Proof.
  intros t read. unfold save_results, duration. fold t.
  repeat split.
  - now destruct (sub _ _).
  - intros -> ->. simpl. eexists; split; reflexivity.
  - intros z -> ->. simpl. eexists; split; reflexivity.
  - intros f -> ->. simpl. eexists; split; reflexivity.
  - eexists; split; reflexivity.
Qed.

Lemma test_duration_defaults_witness :
  exists w, save_results (bare_total None None) "2026-01-01T00:00:00" = inr w
            /\ test_duration (content w) = VInt 0.
Proof.
  apply (proj1 (proj2 (test_duration_defaults (bare_total None None)
                         "2026-01-01T00:00:00"))); reflexivity.
Defined.

End ReportWriter.

(* ================================================================= *)
(** * The single-target runner *)

Section SingleTarget.
Context `{Interpreter}.
Open Scope list_scope.

Lemma quiet_does (e : effect) (c : coroutine) :
  quiet c -> e <> Terminate -> quiet (does [e] c).
Proof.
  unfold quiet; simpl. intros N D I.
  apply in_app_or in I as [I|[I|[]]]; [now apply N | now apply D].
Qed.

Lemma quiet_does2 (e1 e2 : effect) (c : coroutine) :
  quiet c -> e1 <> Terminate -> e2 <> Terminate -> quiet (does [e1; e2] c).
Proof.
  unfold quiet; simpl. intros N D1 D2 I.
  apply in_app_or in I as [I|[I|[I|[]]]];
    [now apply N | now apply D1 | now apply D2].
Qed.

Lemma consistent_start (url : string) (users spawn_rate : Z)
    (run_time : string) :
  consistent (_run_single_test url users spawn_rate run_time).
Proof. simpl. intros [D|[]]; discriminate. Qed.

(** The [finally] block, entered before any [terminate()]. *)
Lemma consistent_finally (pending : option exn) (c : coroutine) :
  quiet c ->
  (forall e, pending = Some e -> isinstance_Exception e = false) ->
  consistent (finally_ pending c).
Proof.
  destruct c as [u us sr rt [[[rc|]]|] a tr];
    unfold quiet, consistent, finally_, reaped_last; simpl; intros Q P.
  - split; [discriminate|].
    split; [intros I; now elim Q | intros e E; left; now apply P].
  - split; [reflexivity|]. split; [now exists tr | exact P].
  - split; [reflexivity | exact Q].
Qed.

Lemma consistent_except (e : exn) (c : coroutine) :
  quiet c -> consistent (except_ e c).
Proof.
  unfold except_. intros Q. destruct (isinstance_Exception e) eqn:E.
  - apply consistent_finally; [|discriminate].
    apply quiet_does; [exact Q | discriminate].
  - apply consistent_finally; [exact Q | now intros ? [= <-]].
Qed.

Lemma consistent_wait (c : coroutine) :
  quiet c -> process c <> None -> consistent (wait_ c).
Proof.
  intros Q N.
  assert (Q' : quiet (does [Wait] c))
    by (apply quiet_does; [exact Q | discriminate]).
  destruct c as [u us sr rt [[[rc|]]|] a tr]; unfold wait_; simpl.
  - apply consistent_finally; [exact Q' | discriminate].
  - exact Q'.
  - now elim N.
Qed.

Lemma consistent_on_line (data : bytes) (c : coroutine) :
  quiet c -> process c <> None -> consistent (on_line data c).
Proof.
  intros Q N. unfold on_line.
  destruct data as [|b data]; [now apply consistent_wait|].
  destruct (decode (b :: data)) as [e|s]; [now apply consistent_except|].
  assert (Q1 : quiet (does [Readline] c))
    by (apply quiet_does; [exact Q | discriminate]).
  assert (Q2 : forall m, quiet (does [Log INFO m; Readline] c))
    by (intros m; apply quiet_does2; [exact Q | discriminate..]).
  destruct c as [u us sr rt [p|] a tr]; [|now elim N].
  destruct (strip s); unfold consistent; simpl; [exact Q1 | apply Q2].
Qed.

Lemma consistent_resume (ev : event) (c : coroutine) :
  consistent c -> consistent (resume ev c).
Proof.
  intros C.
  destruct c as [u us sr rt p a tr]. unfold resume; simpl.
  destruct a as [| | |pending|r].
  - (* line 93 *)
    destruct p as [p|]; [now elim C|].
    destruct ev as [|data|code|e]; try exact C.
    + unfold consistent; simpl. intros I.
      apply in_app_or in I as [I|[I|[]]]; [now apply C | discriminate].
    + now apply consistent_except.
  - (* line 100 *)
    destruct p as [p|]; [|now elim C].
    destruct ev as [|data|code|e]; try exact C.
    + apply consistent_on_line; [exact C | discriminate].
    + destruct p as [[rc|]]; exact C.
    + now apply consistent_except.
  - (* line 107 *)
    destruct p as [p|]; [|now elim C].
    destruct ev as [|data|code|e]; try exact C.
    + apply consistent_finally; [|discriminate].
      destruct p as [[rc|]]; exact C.
    + now apply consistent_except.
  - (* line 114 *)
    destruct p as [[rc]|]; [|now elim C].
    unfold consistent in C; simpl in C. destruct C as (-> & R & P).
    unfold reaped_last in R; simpl in R.
    destruct ev as [|data|code|e]; unfold consistent, reaped_last; simpl;
      try (split; [reflexivity | split; assumption]).
    + split; [discriminate|]. split; [intros _; exact R|].
      intros e ->. left. now apply P.
    + split; [intros _; split; [exact R | discriminate]|].
      split; [intros _; exact R | intros e0 _; now right].
  - (* finished *)
    destruct ev as [|data|code|e]; try exact C.
    destruct p as [[[rc|]]|]; try exact C.
    unfold set_returncode, consistent in *; simpl in *.
    destruct C as (C1 & C2 & C3).
    split; [discriminate|]. split; [exact C2 | exact C3].
Qed.

Lemma consistent_run (evs : list event) (c : coroutine) :
  consistent c -> consistent (run evs c).
Proof.
  unfold run. revert c.
  induction evs as [|ev evs IH]; intros c C; simpl; [exact C|].
  apply IH, consistent_resume, C.
Qed.

Lemma run_snoc (evs : list event) (ev : event) (c : coroutine) :
  run (evs ++ [ev]) c = resume ev (run evs c).
Proof. unfold run. now rewrite fold_left_app. Qed.

Lemma cleaned_finally (pending : option exn) (c : coroutine) :
  quiet c -> cleaned (finally_ pending c) /\ in_try (finally_ pending c) = false.
Proof.
  destruct c as [u us sr rt [[[rc|]]|] a tr];
    unfold quiet, cleaned, finally_, reaped_last, in_try; simpl; intros Q.
  - split; [split; [now exists pending | exact Q] | reflexivity].
  - split; [split; [now exists pending | now exists tr] | reflexivity].
  - split; reflexivity.
Qed.

Lemma cleaned_except (e : exn) (c : coroutine) :
  quiet c -> cleaned (except_ e c) /\ in_try (except_ e c) = false.
Proof.
  unfold except_. intros Q. destruct (isinstance_Exception e).
  - apply cleaned_finally, quiet_does; [exact Q | discriminate].
  - now apply cleaned_finally.
Qed.

(** Every way out of the [try] statement goes through the [finally]
    block. *)
Lemma leaving_try (ev : event) (c : coroutine) :
  consistent c -> in_try c = true -> in_try (resume ev c) = false ->
  cleaned (resume ev c).
Proof.
  intros C.
  destruct c as [u us sr rt p a tr]. unfold resume, in_try at 1; simpl.
  destruct a as [| | |pending|r]; try discriminate; intros _.
  - destruct p as [p|]; [now elim C|].
    destruct ev as [|data|code|e]; try discriminate.
    intros _. now apply cleaned_except.
  - destruct p as [p|]; [|now elim C].
    destruct ev as [|data|code|e]; try discriminate.
    + unfold on_line. destruct data as [|b data].
      * unfold wait_; simpl. destruct p as [[rc|]]; [|discriminate].
        intros _. apply cleaned_finally, quiet_does; [exact C | discriminate].
      * destruct (decode (b :: data)) as [e|s].
        -- intros _. now apply cleaned_except.
        -- destruct (strip s); discriminate.
    + destruct p as [[rc|]]; discriminate.
    + intros _. now apply cleaned_except.
  - destruct p as [p|]; [|now elim C].
    destruct ev as [|data|code|e]; try discriminate.
    + intros _. apply cleaned_finally. destruct p as [[rc|]]; exact C.
    + intros _. now apply cleaned_except.
Qed.

(** C1 (defect of the code): when [create_subprocess_exec] fails, line 110
    logs the error with the URL, but the [finally] block then reads the
    local [process], which line 93 never bound: [UnboundLocalError] leaves
    the coroutine.  It is an [Exception], so it is what [gather] and the
    caller see. *)
Theorem launch_failure_escapes (url : string) (users spawn_rate : Z)
    (run_time msg : string) :
  let c := run [Throw (OSError msg)]
             (_run_single_test url users spawn_rate run_time) in
  at_ c = Finished (Some unbound_process)
  /\ isinstance_Exception unbound_process = true
  /\ trace c
     = [ Spawn (command url users spawn_rate run_time);
         Log ERROR ("Error testing " ++ url ++ ": " ++ msg)%string ].
Proof. repeat split. Qed.

(** X13: once the process is bound the handler does what it is there for:
    an [Exception] raised while streaming or waiting is logged with the URL,
    the process is reaped, and the coroutine returns. *)
Lemma streaming_failure_contained (c : coroutine) (p : Process) (e : exn)
    (code : Z) :
  at_ c = Reading \/ at_ c = Waiting ->
  process c = Some p ->
  isinstance_Exception e = true ->
  let c' := run [Throw e; Exited code] c in
  at_ c' = Finished None
  /\ In (Log ERROR ("Error testing " ++ url c ++ ": " ++ str_exn e)%string)
       (trace c')
  /\ exists rc, process c' = Some {| returncode := Some rc |}.
Proof.
  destruct c as [u us sr rt q a tr]; simpl. intros A [= ->] E.
  unfold resume, except_, finally_; simpl. rewrite E.
  destruct A as [-> | ->], p as [[rc|]]; simpl;
    (split; [reflexivity|]; split; [|eauto]);
    rewrite ?in_app_iff; simpl; tauto.
Qed.

(** X14: what can leave the coroutine at all: the [UnboundLocalError] of a
    failed launch, an exception outside [Exception] (a cancellation), or
    what the [wait()] of the [finally] block raised. *)
Lemma what_escapes (url : string) (users spawn_rate : Z) (run_time : string)
    (evs : list event) (e : exn) :
  let c := run evs (_run_single_test url users spawn_rate run_time) in
  at_ c = Finished (Some e) ->
  (process c = None /\ e = unbound_process)
  \/ isinstance_Exception e = false
  \/ reaped_last c.
Proof.
  intros c A.
  assert (C : consistent c) by apply consistent_run, consistent_start.
  unfold consistent in C. rewrite A in C.
  destruct (process c) as [p|].
  - destruct C as (_ & _ & C). right. now apply C.
  - destruct C as [[= ->] _]. now left.
Qed.

(** C2, amended: whichever event takes the coroutine out of the [try] statement
    (the end of the stream followed by the exit, an exception at the launch
    or while streaming, a cancellation), the [finally] block has run: a
    process that is bound and whose exit code is still unknown has been sent
    [terminate()] and is being waited for, and none is signalled otherwise.
    When that [wait()] returns the call ends with the exit code recorded.
    So at every end of the call a process it launched has exited, unless the
    [wait()] of the [finally] block itself was interrupted after the signal. *)
Theorem cleanup_terminates_then_waits (url : string) (users spawn_rate : Z)
    (run_time : string) (evs : list event) (ev : event) :
  let c := run evs (_run_single_test url users spawn_rate run_time) in
  (in_try c = true -> in_try (resume ev c) = false -> cleaned (resume ev c))
  /\ (forall pending code,
        at_ c = Reaping pending ->
        at_ (resume (Exited code) c) = Finished pending
        /\ process (resume (Exited code) c)
           = Some {| returncode := Some code |})
  /\ (forall r p,
        at_ c = Finished r -> process c = Some p ->
        returncode p <> None \/ (reaped_last c /\ r <> None))
  /\ (In Terminate (trace c) -> reaped_last c).
Proof.
  intros c.
  assert (C : consistent c) by apply consistent_run, consistent_start.
  split; [now apply leaving_try|].
  unfold consistent in C.
  split; [|split].
  - intros pending code A. rewrite A in C.
    unfold resume, set_returncode. rewrite A.
    destruct (process c) as [[rc]|]; [|now elim C].
    destruct C as (C & _). simpl in C; subst rc. now split.
  - intros r p A P. rewrite A, P in C. destruct C as (C & _).
    destruct (returncode p) as [rc|]; [left; discriminate | right; now apply C].
  - intros I. destruct (at_ c) as [| | |pending|r], (process c) as [p|];
      try now elim C.
    destruct C as (_ & C & _). now apply C.
Qed.

End SingleTarget.

(** C2, as the specification states it, fails: the [wait()] of line 114 is
    an [await] like the others and can be cancelled in its turn.  Cancelled
    while it reads, the coroutine sends [terminate()] and waits; cancelled
    again while it waits, it ends with the exit of its subprocess never
    observed: signalled, but not known to have stopped. *)
Lemma cleanup_wait_interrupted :
  let start :=
    @_run_single_test cpython "https://example.com" 1000 1000 "30" in
  let c := run [Started; Throw CancelledError; Throw CancelledError] start in
  at_ c = Finished (Some CancelledError)
  /\ process c = Some {| returncode := None |}
  /\ trace c
     = [ Spawn (@command cpython "https://example.com" 1000 1000 "30");
         Readline; Terminate; Wait ]
  /\ ~ (forall (evs : list event) (p : Process),
          finished (run evs start) = true ->
          process (run evs start) = Some p ->
          returncode p <> None).
Proof.
  repeat split.
  intros F.
  apply (F [Started; Throw CancelledError; Throw CancelledError]
           {| returncode := None |}); reflexivity.
Qed.

Lemma cleanup_terminates_then_waits_witness :
  let c' := run [Started; Throw CancelledError]
              (@_run_single_test cpython "https://example.com" 1000 1000 "30") in
  at_ c' = Reaping (Some CancelledError) /\ cleaned c'.
Proof.
  split; [reflexivity|].
  apply (proj1 (@cleanup_terminates_then_waits cpython "https://example.com"
                  1000 1000 "30" [Started] (Throw CancelledError)));
    reflexivity.
Defined.

(* ================================================================= *)
(** * The orchestrator *)

Section Deduplication.
Open Scope list_scope.

Lemma existsb_eqb (k : string) (seen : list string) :
  existsb (String.eqb k) seen = true <-> In k seen.
Proof.
  rewrite existsb_exists. split.
  - intros (x & I & E). apply String.eqb_eq in E. now subst.
  - intros I. exists k. split; [exact I | apply String.eqb_refl].
Qed.

Lemma keys_setitem {V : Type} (k : string) (v : V) (d : dict string V) :
  dict_keys (dict_setitem k v d)
  = if existsb (String.eqb k) (dict_keys d) then dict_keys d
    else dict_keys d ++ [k].
Proof.
  induction d as [|[k' v'] d IH]; simpl; [reflexivity|].
  rewrite (String.eqb_sym k k').
  destruct (String.eqb k' k); simpl; [reflexivity|].
  rewrite IH. now destruct (existsb _ _).
Qed.

Lemma keys_fromkeys (ks : list string) (d : dict string unit) :
  dict_keys (fold_left (fun d k => dict_setitem k tt d) ks d)
  = dict_keys d ++ first_seen (dict_keys d) ks.
Proof.
  revert d. induction ks as [|k ks IH]; intros d; simpl.
  - now rewrite app_nil_r.
  - rewrite IH, keys_setitem.
    destruct (existsb _ _); [reflexivity | now rewrite <- app_assoc].
Qed.

(** Line 119 keeps each URL at its first occurrence. *)
Lemma unique_first_seen (urls : list string) :
  unique urls = first_seen [] urls.
Proof. unfold unique, dict_fromkeys. now rewrite keys_fromkeys. Qed.

Lemma first_seen_In (u : string) (ks seen : list string) :
  In u (first_seen seen ks) <-> In u ks /\ ~ In u seen.
Proof.
  revert seen. induction ks as [|k ks IH]; intros seen; simpl; [tauto|].
  destruct (existsb _ _) eqn:E.
  - apply existsb_eqb in E. rewrite IH. split; [tauto|].
    intros [[->|I] N]; [now elim N | tauto].
  - assert (N : ~ In k seen) by (rewrite <- existsb_eqb; congruence).
    simpl. rewrite IH, in_app_iff. simpl.
    destruct (string_dec k u) as [->|D]; tauto.
Qed.

Lemma first_seen_NoDup (ks seen : list string) : NoDup (first_seen seen ks).
Proof.
  revert seen. induction ks as [|k ks IH]; intros seen; simpl; [constructor|].
  destruct (existsb _ _); [apply IH|].
  constructor; [|apply IH].
  rewrite first_seen_In, in_app_iff. simpl. tauto.
Qed.

Lemma index_In (u : string) (ks : list string) :
  In u ks -> exists a, index u ks = Some a.
Proof.
  induction ks as [|k ks IH]; simpl; [tauto|]. intros I.
  destruct (String.eqb_spec k u) as [->|D]; [now exists 0|].
  destruct IH as [a ->]; [tauto | now exists (S a)].
Qed.

Lemma index_tail (u k : string) (ks : list string) (a : nat) :
  k <> u -> index u ks = Some a -> index u (k :: ks) = Some (S a).
Proof.
  intros D E; simpl. destruct (String.eqb_spec k u); [contradiction|].
  now rewrite E.
Qed.

(** The kept URLs stand in the order of their first occurrences. *)
Lemma first_seen_ordered (ks seen : list string) (i j : nat) (u v : string) :
  i < j ->
  nth_error (first_seen seen ks) i = Some u ->
  nth_error (first_seen seen ks) j = Some v ->
  exists a b, index u ks = Some a /\ index v ks = Some b /\ a < b.
Proof.
  revert seen i j. induction ks as [|k ks IH]; intros seen i j L; simpl.
  - now destruct i.
  - destruct (existsb _ _) eqn:E.
    + apply existsb_eqb in E. intros Nu Nv.
      destruct (IH seen i j L Nu Nv) as (a & b & A & B & AB).
      apply nth_error_In, first_seen_In in Nu, Nv.
      exists (S a), (S b). repeat split; [| |lia];
        apply index_tail; trivial; intros ->; tauto.
    + destruct j as [|j]; [lia|]. simpl.
      destruct i as [|i]; simpl.
      * intros [= <-] Nv. apply nth_error_In, first_seen_In in Nv.
        destruct Nv as [Iv Nv]. rewrite in_app_iff in Nv; simpl in Nv.
        destruct (index_In v ks Iv) as [b B].
        exists 0, (S b). rewrite String.eqb_refl.
        repeat split; [|lia]. apply index_tail; [tauto | exact B].
      * intros Nu Nv.
        destruct (IH (seen ++ [k]) i j ltac:(lia) Nu Nv)
          as (a & b & A & B & AB).
        apply nth_error_In, first_seen_In in Nu, Nv.
        rewrite in_app_iff in Nu, Nv; simpl in Nu, Nv.
        exists (S a), (S b). repeat split; [| |lia];
          apply index_tail; trivial; tauto.
Qed.

End Deduplication.

Section Gathering.
Context `{Interpreter}.
Open Scope list_scope.

#[local] Arguments decode : simpl never.
#[local] Arguments strip : simpl never.

Lemma spawned_app (tr es : list effect) :
  spawned (tr ++ es) = spawned tr ++ spawned es.
Proof.
  induction tr as [|e tr IH]; simpl; [reflexivity|].
  destruct e; simpl; now rewrite IH.
Qed.

Ltac break_resume :=
  repeat match goal with
    | |- context [decode ?d] => destruct (decode d)
    | |- context [strip ?s] => destruct (strip s)
    | |- context [isinstance_Exception ?e] => destruct (isinstance_Exception e)
    end.

(** A resumption changes neither the arguments of the call nor the
    commands it has launched. *)
Lemma call_resume (ev : event) (c : coroutine) : call (resume ev c) = call c.
Proof.
  destruct c as [u us sr rt [[[rc|]]|] [| | |pending|r] tr];
    destruct ev as [|[|b data]|code|e];
    unfold call, resume, on_line, wait_, except_, finally_, set_returncode;
    simpl; break_resume; simpl;
    rewrite ?spawned_app; simpl; rewrite ?app_nil_r; reflexivity.
Qed.

(** A finished coroutine stays as it finished. *)
Lemma finished_resume (ev : event) (c : coroutine) :
  finished c = true -> at_ (resume ev c) = at_ c.
Proof.
  destruct c as [u us sr rt [[[rc|]]|] [| | |pending|r] tr];
    try discriminate; now destruct ev.
Qed.

Lemma finished_stays (ev : event) (c : coroutine) :
  finished c = true -> finished (resume ev c) = true.
Proof.
  intros F. unfold finished. now rewrite (finished_resume ev c F).
Qed.

Lemma resume_nth_calls (i : nat) (ev : event) (ts : list coroutine) :
  map call (resume_nth i ev ts) = map call ts.
Proof.
  revert i. induction ts as [|t ts IH]; intros [|i]; simpl; trivial.
  - now rewrite call_resume.
  - now rewrite IH.
Qed.

Lemma resume_nth_finished (i : nat) (ev : event) (ts : list coroutine) :
  forallb finished ts = true -> forallb finished (resume_nth i ev ts) = true.
Proof.
  revert i. induction ts as [|t ts IH]; intros [|i]; simpl; trivial;
    intros F; apply andb_true_iff in F as [F1 F2]; apply andb_true_iff.
  - split; [now apply finished_stays | exact F2].
  - split; [exact F1 | now apply IH].
Qed.

(** Resuming one task leaves the others as they are. *)
Lemma resume_nth_other (i j : nat) (ev : event) (ts : list coroutine) :
  j <> i -> nth_error (resume_nth i ev ts) j = nth_error ts j.
Proof.
  revert i j. induction ts as [|t ts IH]; intros [|i] [|j] D; simpl; trivial.
  - contradiction.
  - apply IH. congruence.
Qed.

Lemma deliver_other (i j : nat) (ev : event) (g : gathering) :
  j <> i -> nth_error (tasks (deliver i ev g)) j = nth_error (tasks g) j.
Proof. apply resume_nth_other. Qed.

Lemma deliver_calls (i : nat) (ev : event) (g : gathering) :
  map call (tasks (deliver i ev g)) = map call (tasks g).
Proof. apply resume_nth_calls. Qed.

Lemma until_gathered_calls (sched : schedule) (g : gathering) :
  map call (tasks (fst (until_gathered sched g))) = map call (tasks g).
Proof.
  revert g. induction sched as [|[i ev] sched IH]; intros g; simpl.
  - now destruct (gathered g).
  - destruct (gathered g); [reflexivity|].
    now rewrite IH, deliver_calls.
Qed.

Lemma cancel_all_calls (ts : list coroutine) :
  map call (cancel_all ts) = map call ts.
Proof.
  unfold cancel_all. induction ts as [|t ts IH]; simpl; [reflexivity|].
  rewrite IH. f_equal. unfold cancel.
  destruct (finished t); [reflexivity|].
  destruct (at_ t); try reflexivity; apply call_resume.
Qed.

Lemma cancelled_nth_calls (i : nat) (ev : event) (ts : list coroutine) :
  map call (cancelled_nth i ev ts) = map call ts.
Proof.
  revert i. induction ts as [|t ts IH]; intros [|i]; simpl; trivial.
  - now rewrite call_resume.
  - now rewrite IH.
Qed.

Lemma shutdown_calls (sched : schedule) (ts : list coroutine) :
  map call (fst (shutdown sched ts)) = map call ts.
Proof.
  revert ts. induction sched as [|[i ev] sched IH]; intros ts; simpl.
  - now destruct (forallb finished ts).
  - destruct (forallb finished ts); [reflexivity|].
    now rewrite IH, cancelled_nth_calls.
Qed.

Lemma asyncio_run_calls (main : gathering) (sched : schedule) :
  map call (tasks (fst (asyncio_run main sched))) = map call (tasks main).
Proof.
  unfold asyncio_run.
  generalize (until_gathered_calls sched main).
  destruct (until_gathered sched main) as [g rest]; simpl. intros E.
  destruct (gathered g); [|exact E].
  generalize (shutdown_calls rest (cancel_all (tasks g))).
  destruct (shutdown rest (cancel_all (tasks g))) as [ts closed]; simpl.
  intros ->. now rewrite cancel_all_calls.
Qed.

(** Line 126 returns normally only once every task has finished. *)
Lemma returns_after_all (sched : schedule) (g : gathering) :
  (gathered g = Some None -> forallb finished (tasks g) = true) ->
  gathered (fst (until_gathered sched g)) = Some None ->
  forallb finished (tasks (fst (until_gathered sched g))) = true.
Proof.
  revert g. induction sched as [|[i ev] sched IH]; intros g J; simpl.
  - destruct (gathered g) eqn:G; simpl; [now rewrite G | now rewrite G].
  - destruct (gathered g) eqn:G; simpl; [now rewrite G|].
    apply IH. unfold deliver; simpl. rewrite G.
    destruct (nth_error (tasks g) i); [|discriminate].
    destruct (nth_error (resume_nth i ev (tasks g)) i); [|discriminate].
    destruct (raised_by _ _); [discriminate|].
    unfold settle.
    destruct (forallb finished (resume_nth i ev (tasks g)));
      [trivial | discriminate].
Qed.

(** So [run_concurrent_tests] returns [None] only after every per-URL
    task has finished; it is by raising that it can end earlier. *)
Lemma orchestrator_returns_after_all (urls : list string)
    (users spawn_rate : Z) (run_time : string) (sched : schedule) :
  let g := fst (until_gathered sched
                  (run_concurrent_tests urls users spawn_rate run_time)) in
  gathered g = Some None -> forallb finished (tasks g) = true.
Proof.
  apply returns_after_all. simpl. unfold settle.
  destruct (forallb finished _); [trivial | discriminate].
Qed.

End Gathering.

Section Orchestration.
Context `{Interpreter}.
Open Scope list_scope.

(** C4: the orchestrator starts one [_run_single_test] per distinct URL of
    its input: the tested URLs are without repetition, they are exactly the
    URLs of the input, each is launched once (with [--host] that URL), and
    they stand in the order in which they first occur in the input. *)
Theorem one_test_per_distinct_url (urls : list string) (users spawn_rate : Z)
    (run_time : string) :
  let g := run_concurrent_tests urls users spawn_rate run_time in
  let tested := map url (tasks g) in
  tasks g = map (fun u => _run_single_test u users spawn_rate run_time) tested
  /\ map (fun t => spawned (trace t)) (tasks g)
     = map (fun u => [command u users spawn_rate run_time]) tested
  /\ tested = first_seen [] urls
  /\ NoDup tested
  /\ (forall u, In u tested <-> In u urls)
  /\ (forall u, In u urls -> count_occ string_dec tested u = 1)
  /\ (forall i j u v,
        i < j -> nth_error tested i = Some u -> nth_error tested j = Some v ->
        exists a b, index u urls = Some a /\ index v urls = Some b /\ a < b).
Proof.
  intros g tested.
  assert (T : tested = unique urls).
  { unfold tested, g, run_concurrent_tests; simpl.
    rewrite map_map; simpl. apply map_id. }
  assert (M : forall u, In u tested <-> In u urls).
  { intros u. rewrite T, unique_first_seen, first_seen_In. simpl. tauto. }
  assert (N : NoDup tested)
    by (rewrite T, unique_first_seen; apply first_seen_NoDup).
  split; [now rewrite T|].
  split; [rewrite T; unfold g; simpl; now rewrite !map_map|].
  split; [now rewrite T, unique_first_seen|].
  split; [exact N|]. split; [exact M|]. split.
  - intros u I. apply (proj1 (NoDup_count_occ' string_dec tested) N).
    now apply M.
  - rewrite T, unique_first_seen. apply first_seen_ordered.
Qed.

(** C5: on an empty list [run_break_test] logs one error and returns:
    no orchestrator is made, nothing is launched, nothing is raised, and the
    schedule of the event loop plays no part. *)
Theorem empty_urls_fail_fast (run_time : option Z) (sched : schedule) :
  let o := run_break_test [] run_time sched in
  returned o = Some None
  /\ logged o = [(ERROR, "No URLs provided"%string)]
  /\ orchestrator o = None
  /\ launches o = []
  /\ base_dirs o = [].
Proof. repeat split. Qed.

Lemma launches_calls (ts : list coroutine) :
  flat_map (fun t => spawned (trace t)) ts
  = List.concat (map snd (map call ts)).
Proof.
  induction ts as [|t ts IH]; simpl; [reflexivity | now rewrite IH].
Qed.

(** What [run_break_test] hands to the orchestrator, as it stays through
    the whole run. *)
Lemma run_break_test_calls (u : string) (urls : list string)
    (run_time : option Z) (sched : schedule) :
  let rt := str_optional_int run_time in
  exists g,
    orchestrator (run_break_test (u :: urls) run_time sched) = Some g
    /\ map call (tasks g)
       = map (fun u => (u, 1000%Z, 1000%Z, rt, [command u 1000 1000 rt]))
           (unique (u :: urls)).
Proof.
  intros rt.
  unfold run_break_test, run_break_test_on, LoadTestRunner, asyncio_run_on.
  cbn [undisturbed mkdir sigint]. fold rt.
  generalize (asyncio_run_calls
                (run_concurrent_tests (u :: urls) 1000 1000 rt) sched).
  destruct (asyncio_run _ sched) as [g result]; simpl. intros E.
  exists g. split.
  - destruct result as [[e|]|]; try reflexivity.
    destruct e; reflexivity.
  - rewrite E, !map_map. reflexivity.
Qed.

(** C10: whatever the URLs, the run time and the schedule, every test that
    [run_break_test] drives has 1000 users and a spawn rate of 1000, and
    every subprocess is launched with [-u 1000 -r 1000]: the two values are
    constants of the call on lines 140-141, no parameter of the entry point
    reaches them. *)
Theorem users_and_spawn_rate_fixed (urls : list string) (run_time : option Z)
    (sched : schedule) :
  let o := run_break_test urls run_time sched in
  match orchestrator o with
  | Some g =>
      Forall (fun t => users t = 1000%Z /\ spawn_rate t = 1000%Z) (tasks g)
  | None => urls = []
  end
  /\ launches o
     = map (fun u =>
              [ sys_executable; "-m"; "locust"; "-f"; __file__; "--headless";
                "-u"; "1000"; "-r"; "1000";
                "--run-time"; str_optional_int run_time;
                "--only-summary"; "--host"; u ]%string)
         (unique urls).
Proof.
  intros o. destruct urls as [|u urls]; [now split|].
  destruct (run_break_test_calls u urls run_time sched) as (g & O & C).
  unfold o, launches. rewrite O. split.
  - apply Forall_forall. intros t I.
    apply (in_map call) in I. rewrite C in I.
    apply in_map_iff in I as (v & E & _). unfold call in E.
    injection E as _ E1 E2 _ _. now split.
  - rewrite launches_calls, C, !map_map; simpl. clear C.
    induction (unique (u :: urls)) as [|v vs IH]; simpl;
      [reflexivity | now rewrite IH].
Qed.

End Orchestration.

Lemma one_test_per_distinct_url_witness :
  let urls := [ "https://example.com"; "https://anotherexample.com";
                "https://example.com" ]%string in
  let g := @run_concurrent_tests cpython urls 1000 1000 "30" in
  map url (tasks g) = ["https://example.com"; "https://anotherexample.com"]%string
  /\ count_occ string_dec (map url (tasks g)) "https://example.com" = 1
  /\ exists a b, index "https://example.com" urls = Some a
                 /\ index "https://anotherexample.com" urls = Some b
                 /\ a < b.
Proof.
  intros urls g.
  destruct (@one_test_per_distinct_url cpython urls 1000 1000 "30")
    as (_ & _ & _ & _ & _ & Once & Order).
  split; [reflexivity|]. split.
  - apply Once. simpl; auto.
  - apply (Order 0 1); [lia | reflexivity | reflexivity].
Defined.

(** C3 (defect of the code, the one of C1): a launch that fails makes its
    coroutine raise, so [gather] settles line 126 with that exception while
    the sibling is still streaming; [asyncio.run] then cancels the sibling,
    whose [finally] block terminates its subprocess before its run time is
    over.  The orchestrator has not waited for every task, and the sibling
    has been cut short. *)
Theorem launch_failure_reaches_siblings :
  let urls := ["https://a.example"; "https://b.example"]%string in
  let fail := Throw (OSError "[Errno 2] No such file or directory") in
  let main := @run_concurrent_tests cpython urls 1000 1000 "30" in
  let g := fst (until_gathered [(1, Started); (0, fail)] main) in
  let o := @run_break_test cpython urls (Some 30%Z)
             [(1, Started); (0, fail); (1, Exited (-15))] in
  gathered g = Some (Some unbound_process)
  /\ map at_ (tasks g) = [Finished (Some unbound_process); Reading]
  /\ returned o = Some None
  /\ logged o
     = [ (INFO, "Starting concurrent tests for 2 URLs");
         (ERROR, "Tests failed with error: " ++ str_exn unbound_process) ]%string
  /\ option_map (fun g' => map at_ (tasks g')) (orchestrator o)
     = Some [Finished (Some unbound_process); Finished (Some CancelledError)]
  /\ option_map (fun g' => map (fun t => skipn 1 (trace t)) (tasks g'))
       (orchestrator o)
     = Some [ [Log ERROR "Error testing https://a.example: [Errno 2] No such file or directory"];
              [Readline; Terminate; Wait] ].
Proof. repeat split. Qed.

(** By contrast a subprocess that starts and exits with an error status
    leaves its sibling alone: both coroutines return and line 126 returns
    after both. *)
Lemma failed_exit_is_isolated :
  let urls := ["https://a.example"; "https://b.example"]%string in
  let o := @run_break_test cpython urls (Some 30%Z)
             [ (0, Started); (1, Started); (0, Line []); (0, Exited 1);
               (1, Line []); (1, Exited 0) ] in
  returned o = Some None
  /\ logged o
     = [ (INFO, "Starting concurrent tests for 2 URLs");
         (INFO, "Load tests completed successfully") ]%string
  /\ option_map (fun g => map at_ (tasks g)) (orchestrator o)
     = Some [Finished None; Finished None]
  /\ option_map (fun g => map (fun t => skipn 1 (trace t)) (tasks g))
       (orchestrator o)
     = Some [[Readline; Wait]; [Readline; Wait]].
Proof. repeat split. Qed.

(* ================================================================= *)
(** * Further properties of the report writer *)

Section ReportName.

#[local] Arguments Ascii.eqb : simpl never.

Lemma underscore_not_dot (c : ascii) : Ascii.eqb (underscore c) "." = false.
Proof.
  unfold underscore. destruct (Ascii.eqb c "/") eqn:S; simpl; [reflexivity|].
  destruct (Ascii.eqb c ".") eqn:D; [reflexivity | exact D].
Qed.

Lemma underscore_no_dot (s : string) :
  has_char "." (map_chars underscore s) = false.
Proof.
  induction s as [|c s IH]; simpl; [reflexivity|].
  now rewrite underscore_not_dot, IH.
Qed.

Lemma underscore_fixes (s : string) :
  has_char "/" s = false -> has_char "." s = false ->
  map_chars underscore s = s.
Proof.
  induction s as [|c s IH]; simpl; [reflexivity|]. intros S D.
  apply orb_false_iff in S as [Sc S]; apply orb_false_iff in D as [Dc D].
  unfold underscore at 1. rewrite Sc, Dc; simpl. now rewrite IH.
Qed.


(** X2: sanitising twice is sanitising once: a sanitised name holds nothing
    that line 64 would still delete or replace. *)
Theorem url_part_idempotent (h : string) : url_part (url_part h) = url_part h.
Proof.
  assert (S : has_char "/" (url_part h) = false)
    by (rewrite url_part_map; apply underscore_no_slash).
  assert (D : has_char "." (url_part h) = false)
    by (rewrite url_part_map; apply underscore_no_dot).
  destruct (no_slash_no_scheme _ S) as [O1 O2].
  change (url_part (url_part h)) with (url_part ("" ++ url_part h)).
  rewrite (url_part_scheme "" (url_part h)); [|simpl; auto|exact O1|exact O2].
  now apply underscore_fixes.
Qed.

(** X3: a timestamp attribute that is present but [None] is not replaced by
    the default of [getattr]: the subtraction of lines 57-58 raises
    [TypeError], before the directory is made or the file opened, so nothing
    is written. *)
Theorem none_timestamp_raises (environment : Environment) (now : string) :
  last_request_timestamp (total (stats environment)) = Some VNone
  \/ start_time (total (stats environment)) = Some VNone ->
  exists msg, save_results environment now = inl (TypeError msg).
Proof.
  unfold save_results, duration. intros [-> | ->]; simpl.
  - eexists; reflexivity.
  - destruct (last_request_timestamp _) as [[z|f|]|]; simpl;
      eexists; reflexivity.
Qed.

End ReportName.

Lemma none_timestamp_raises_witness :
  exists msg,
    save_results (bare_total (Some VNone) (Some (VFloat 1700000000.5)))
      "2026-01-01T00:00:00"
    = inl (TypeError msg).
Proof.
  apply (none_timestamp_raises
           (bare_total (Some VNone) (Some (VFloat 1700000000.5)))).
  left; reflexivity.
Defined.

(* ================================================================= *)
(** * Further properties of the de-duplication *)

Section Distinct.
Open Scope list_scope.

Lemma first_seen_distinct (urls seen : list string) :
  NoDup urls -> (forall u, In u urls -> ~ In u seen) ->
  first_seen seen urls = urls.
Proof.
  revert seen. induction urls as [|u urls IH]; intros seen N F; simpl;
    [reflexivity|].
  inversion N as [|? ? Nu N']; subst.
  destruct (existsb _ _) eqn:E.
  - apply existsb_eqb in E. elim (F u); simpl; auto.
  - f_equal. apply IH; [exact N'|].
    intros v I J. apply in_app_or in J as [J|[->|[]]].
    + apply (F v); simpl; auto.
    + contradiction.
Qed.

Lemma first_seen_length (urls seen : list string) :
  List.length (first_seen seen urls) <= List.length urls.
Proof.
  revert seen. induction urls as [|u urls IH]; intros seen; simpl; [lia|].
  destruct (existsb _ _); simpl.
  - specialize (IH seen). lia.
  - specialize (IH (seen ++ [u])). lia.
Qed.

(** X4: line 119 leaves a list without duplicates as it is, order included;
    so it changes nothing when applied twice, and it never makes the list
    longer. *)
Theorem unique_fixes_distinct (urls : list string) :
  (NoDup urls -> unique urls = urls)
  /\ unique (unique urls) = unique urls
  /\ List.length (unique urls) <= List.length urls.
Proof.
  assert (F : forall l, NoDup l -> unique l = l).
  { intros l N. rewrite unique_first_seen.
    apply first_seen_distinct; [exact N | intros ? _ []]. }
  split; [apply F|]. split.
  - apply F. rewrite unique_first_seen. apply first_seen_NoDup.
  - rewrite unique_first_seen. apply first_seen_length.
Qed.

End Distinct.

Lemma unique_fixes_distinct_witness :
  unique ["https://example.com"; "https://anotherexample.com"]%string
  = ["https://example.com"; "https://anotherexample.com"]%string.
Proof.
  apply (proj1 (unique_fixes_distinct
                  ["https://example.com"; "https://anotherexample.com"]%string)).
  repeat constructor; simpl; intuition discriminate.
Defined.

(* ================================================================= *)
(** * Further properties of the single-target runner *)

Section Streaming.
Context `{Interpreter}.
Open Scope list_scope.

#[local] Arguments decode : simpl never.
#[local] Arguments strip : simpl never.

Ltac break_line :=
  repeat match goal with
    | |- context [decode ?d] => destruct (decode d)
    | |- context [strip ?s] => destruct (strip s)
    | |- context [isinstance_Exception ?e] => destruct (isinstance_Exception e)
    end.

Ltac crush_resume :=
  unfold resume, on_line, wait_, except_, finally_, set_returncode;
  simpl; break_line; simpl.

Lemma run_app (evs evs' : list event) (c : coroutine) :
  run (evs ++ evs') c = run evs' (run evs c).
Proof. unfold run. apply fold_left_app. Qed.

Lemma terminations_app (tr es : list effect) :
  terminations (tr ++ es) = terminations tr + terminations es.
Proof.
  induction tr as [|e tr IH]; simpl; [reflexivity|].
  destruct e; simpl; now rewrite IH.
Qed.

Lemma info_messages_app (tr es : list effect) :
  info_messages (tr ++ es) = info_messages tr ++ info_messages es.
Proof.
  induction tr as [|e tr IH]; simpl; [reflexivity|].
  destruct e as [| | | |[] m]; simpl; now rewrite IH.
Qed.

Lemma error_messages_app (tr es : list effect) :
  error_messages (tr ++ es) = error_messages tr ++ error_messages es.
Proof.
  induction tr as [|e tr IH]; simpl; [reflexivity|].
  destruct e as [| | | |[] m]; simpl; now rewrite IH.
Qed.



Lemma counted_resume (ev : event) (c : coroutine) :
  counted c -> counted (resume ev c).
Proof.
  destruct c as [u us sr rt [[[rc|]]|] [| | |pending|r] tr];
    destruct ev as [|[|b data]|code|e];
    unfold counted, in_try; crush_resume; intros K;
    rewrite ?terminations_app; simpl; lia.
Qed.

Lemma counted_run (evs : list event) (c : coroutine) :
  counted c -> counted (run evs c).
Proof.
  revert c. induction evs as [|ev evs IH]; intros c K; [exact K|].
  apply (IH (resume ev c)), counted_resume, K.
Qed.

(** X6: [terminate()] is called at most once in a call, and never before
    the coroutine has left the [try] statement. *)
Theorem terminates_at_most_once (url : string) (users spawn_rate : Z)
    (run_time : string) (evs : list event) :
  let c := run evs (_run_single_test url users spawn_rate run_time) in
  terminations (trace c) <= 1
  /\ (in_try c = true -> terminations (trace c) = 0).
Proof.
  intros c.
  assert (K : counted c) by (apply counted_run; reflexivity).
  unfold counted in K. destruct (in_try c); split; (lia || discriminate || trivial).
Qed.

Lemma anonymous_resume (ev : event) (c : coroutine) :
  anonymous (resume ev c) = anonymous (resume ev (anonymous c))
  /\ anonymous (resume ev c) = anonymous (resume (forget_code ev) c).
Proof.
  destruct c as [u us sr rt [[[rc|]]|] [| | |pending|r] tr];
    destruct ev as [|[|b data]|code|e];
    unfold anonymous, forget_code; crush_resume; split; reflexivity.
Qed.

Lemma anonymous_run_state (evs : list event) (c : coroutine) :
  anonymous (run evs c) = anonymous (run evs (anonymous c)).
Proof.
  revert c. induction evs as [|ev evs IH]; intros c.
  - destruct c as [u us sr rt [[[rc|]]|] a tr]; reflexivity.
  - change (run (ev :: evs) ?x) with (run evs (resume ev x)).
    rewrite IH, (proj1 (anonymous_resume ev c)). now rewrite <- IH.
Qed.

Lemma anonymous_run_events (evs : list event) (c : coroutine) :
  anonymous (run evs c) = anonymous (run (map forget_code evs) c).
Proof.
  revert c. induction evs as [|ev evs IH]; intros c; [reflexivity|].
  change (anonymous (run evs (resume ev c))
          = anonymous (run (map forget_code evs) (resume (forget_code ev) c))).
  rewrite IH, anonymous_run_state, (proj2 (anonymous_resume ev c)).
  now rewrite <- anonymous_run_state.
Qed.

Lemma anonymous_shows (c : coroutine) :
  at_ (anonymous c) = at_ c /\ trace (anonymous c) = trace c.
Proof. destruct c as [u us sr rt [[[rc|]]|] a tr]; split; reflexivity. Qed.

(** X7: the value of the exit code plays no part: two runs that differ only
    in the exit codes the subprocess reports end in the same way and log the
    same.  A load test that exits with an error status is not told apart
    from one that succeeds. *)
Theorem exit_code_ignored (url : string) (users spawn_rate : Z)
    (run_time : string) (evs evs' : list event) :
  map forget_code evs = map forget_code evs' ->
  let c := run evs (_run_single_test url users spawn_rate run_time) in
  let c' := run evs' (_run_single_test url users spawn_rate run_time) in
  at_ c = at_ c' /\ trace c = trace c'.
Proof.
  intros E c c'.
  assert (A : anonymous c = anonymous c')
    by (unfold c, c'; now rewrite anonymous_run_events, E,
          <- anonymous_run_events).
  destruct (anonymous_shows c) as [<- <-], (anonymous_shows c') as [<- <-].
  now rewrite A.
Qed.

(** Reading one more line of output. *)
Lemma reading_line (data : bytes) (c : coroutine) :
  at_ c = Reading -> is_line data = true ->
  let c' := resume (Line data) c in
  at_ c' = Reading /\ process c' = process c /\ url c' = url c
  /\ info_messages (trace c') = info_messages (trace c) ++ echo (url c) data
  /\ error_messages (trace c') = error_messages (trace c)
  /\ terminations (trace c') = terminations (trace c).
Proof.
  destruct c as [u us sr rt p a tr]; simpl. intros ->.
  destruct data as [|b data]; [discriminate|].
  unfold is_line, echo, resume, on_line; simpl.
  destruct (decode (b :: data)) as [e|s]; [discriminate|]. intros _.
  destruct (strip s); simpl;
    rewrite info_messages_app, error_messages_app, terminations_app; simpl;
    rewrite ?app_nil_r, ?Nat.add_0_r; repeat split.
Qed.

Lemma reading_lines (lines : list bytes) (c : coroutine) :
  at_ c = Reading -> Forall (fun d => is_line d = true) lines ->
  let c' := run (map Line lines) c in
  at_ c' = Reading /\ process c' = process c /\ url c' = url c
  /\ info_messages (trace c')
     = info_messages (trace c) ++ flat_map (echo (url c)) lines
  /\ error_messages (trace c') = error_messages (trace c)
  /\ terminations (trace c') = terminations (trace c).
Proof.
  revert c. induction lines as [|d lines IH]; intros c A F; simpl.
  - rewrite app_nil_r. repeat split; exact A.
  - inversion F as [|? ? Fd F']; subst.
    destruct (reading_line d c A Fd) as (A1 & P1 & U1 & I1 & E1 & T1).
    destruct (IH (resume (Line d) c) A1 F') as (A2 & P2 & U2 & I2 & E2 & T2).
    change (run (Line d :: map Line lines) c)
      with (run (map Line lines) (resume (Line d) c)).
    rewrite A2, P2, U2, I2, E2, T2, P1, U1, I1, E1, T1, app_assoc.
    repeat split.
Qed.

(** The coroutine once its subprocess runs and [lines] have been read. *)
Lemma streamed (url : string) (users spawn_rate : Z) (run_time : string)
    (lines : list bytes) :
  Forall (fun d => is_line d = true) lines ->
  let c := run (Started :: map Line lines)
             (_run_single_test url users spawn_rate run_time) in
  at_ c = Reading /\ process c = Some {| returncode := None |}
  /\ Runner.url c = url
  /\ info_messages (trace c) = flat_map (echo url) lines
  /\ error_messages (trace c) = [] /\ terminations (trace c) = 0.
Proof.
  intros F.
  change (run (Started :: map Line lines)
            (_run_single_test url users spawn_rate run_time))
    with (run (map Line lines)
            (resume Started (_run_single_test url users spawn_rate run_time))).
  apply (reading_lines lines
           (resume Started (_run_single_test url users spawn_rate run_time))
           eq_refl F).
Qed.

(** X8: while the subprocess writes lines that decode, the coroutine keeps
    reading, and what it has logged is, in the order of the output, one
    message [[url] text] for each line whose text is not blank once
    stripped; it logs no error and sends no signal. *)
Theorem output_logged_in_order (url : string) (users spawn_rate : Z)
    (run_time : string) (lines : list bytes) :
  Forall (fun d => is_line d = true) lines ->
  let c := run (Started :: map Line lines)
             (_run_single_test url users spawn_rate run_time) in
  at_ c = Reading
  /\ info_messages (trace c) = flat_map (echo url) lines
  /\ error_messages (trace c) = []
  /\ terminations (trace c) = 0.
Proof.
  intros F c.
  destruct (streamed url users spawn_rate run_time lines F)
    as (A & _ & _ & I & E & T).
  now repeat split.
Qed.

Lemma decode_error (data : bytes) (e : exn) :
  decode data = inl e ->
  e = UnicodeDecodeError "'utf-8' codec can't decode bytes".
Proof. unfold decode. destruct (utf8_ok _ _ _ _); now intros [= <-]. Qed.

(** The three ways the streaming ends, from a coroutine that is reading
    the output of a live subprocess. *)
Lemma ends_of_streaming (c : coroutine) (code : Z) :
  at_ c = Reading -> process c = Some {| returncode := None |} ->
  (let c' := run [Line []; Exited code] c in
   at_ c' = Finished None /\ process c' = Some {| returncode := Some code |}
   /\ trace c' = trace c ++ [Wait])
  /\ (forall bad, bad <> [] -> is_line bad = false ->
      let c' := run [Line bad; Exited code] c in
      at_ c' = Finished None
      /\ process c' = Some {| returncode := Some code |}
      /\ trace c'
         = trace c
           ++ [ Log ERROR ("Error testing " ++ Runner.url c
                           ++ ": 'utf-8' codec can't decode bytes")%string;
                Terminate; Wait ])
  /\ (forall e, isinstance_Exception e = false ->
      let c' := run [Throw e; Exited code] c in
      at_ c' = Finished (Some e)
      /\ process c' = Some {| returncode := Some code |}
      /\ trace c' = trace c ++ [Terminate; Wait]).
Proof.
  destruct c as [u us sr rt p a tr]; simpl. intros -> ->.
  split; [|split].
  - repeat split.
  - intros [|b bad] N L; [now elim N|].
    unfold is_line in L.
    destruct (decode (b :: bad)) as [e|s] eqn:D; [|discriminate].
    apply decode_error in D as E; subst e.
    unfold run; simpl fold_left.
    match goal with
    | |- context [resume (Line (b :: bad)) ?c0] =>
        replace (resume (Line (b :: bad)) c0)
          with (except_
                  (UnicodeDecodeError "'utf-8' codec can't decode bytes") c0)
          by (unfold resume, on_line; simpl; now rewrite D)
    end.
    unfold except_, finally_, resume; simpl.
    rewrite <- app_assoc. repeat split.
  - intros e E. unfold run; simpl fold_left.
    match goal with
    | |- context [resume (Throw e) ?c0] =>
        replace (resume (Throw e) c0) with (finally_ (Some e) c0)
          by (unfold resume, except_; simpl; now rewrite E)
    end.
    unfold finally_, resume; simpl. repeat split.
Qed.

(** X9: a run in which the subprocess starts, writes lines that decode,
    closes its output and exits, with whatever status: the coroutine returns
    [None], has logged the lines (tagged, in order, blank ones left out) and
    no error, has recorded the exit code and has sent no signal. *)
Theorem healthy_run_returns (url : string) (users spawn_rate : Z)
    (run_time : string) (lines : list bytes) (code : Z) :
  Forall (fun d => is_line d = true) lines ->
  let c := run (Started :: map Line lines ++ [Line []; Exited code])
             (_run_single_test url users spawn_rate run_time) in
  at_ c = Finished None
  /\ process c = Some {| returncode := Some code |}
  /\ info_messages (trace c) = flat_map (echo url) lines
  /\ error_messages (trace c) = []
  /\ terminations (trace c) = 0.
Proof.
  intros F c. unfold c.
  change (Started :: map Line lines ++ [Line []; Exited code])
    with ((Started :: map Line lines) ++ [Line []; Exited code]).
  rewrite run_app.
  destruct (streamed url users spawn_rate run_time lines F)
    as (A & P & U & I & E & T).
  destruct (ends_of_streaming _ code A P) as ((A' & P' & T') & _).
  rewrite T', info_messages_app, error_messages_app, terminations_app,
    I, E, T; simpl.
  rewrite app_nil_r. now repeat split.
Qed.

(** X10: a line that is not UTF-8 ends the streaming: the error is logged
    with the URL, the subprocess (still running) is sent [terminate()] and
    waited for, and the coroutine returns [None] once it has exited; what the
    subprocess wrote before is logged, what it writes after is not read. *)
Theorem undecodable_line_stops_streaming (url : string) (users spawn_rate : Z)
    (run_time : string) (lines : list bytes) (bad : bytes) (code : Z)
    (later : list bytes) :
  Forall (fun d => is_line d = true) lines ->
  bad <> [] -> is_line bad = false ->
  let c := run (Started :: map Line lines
                ++ [Line bad; Exited code] ++ map Line later)
             (_run_single_test url users spawn_rate run_time) in
  at_ c = Finished None
  /\ process c = Some {| returncode := Some code |}
  /\ info_messages (trace c) = flat_map (echo url) lines
  /\ error_messages (trace c)
     = [("Error testing " ++ url ++ ": 'utf-8' codec can't decode bytes")%string]
  /\ terminations (trace c) = 1.
Proof.
  intros F N B c. unfold c.
  change (Started :: map Line lines
          ++ [Line bad; Exited code] ++ map Line later)
    with ((Started :: map Line lines)
          ++ [Line bad; Exited code] ++ map Line later).
  rewrite !run_app.
  destruct (streamed url users spawn_rate run_time lines F)
    as (A & P & U & I & E & T).
  destruct (ends_of_streaming _ code A P) as (_ & Bad & _).
  destruct (Bad bad N B) as (A' & P' & T'). clear Bad.
  set (c1 := run [Line bad; Exited code] _) in *.
  assert (S : run (map Line later) c1 = c1).
  { assert (G : forall l c0, finished c0 = true -> run (map Line l) c0 = c0).
    { induction l as [|d l IH]; intros c0 G0; [reflexivity|].
      change (run (map Line (d :: l)) c0)
        with (run (map Line l) (resume (Line d) c0)).
      replace (resume (Line d) c0) with c0; [now apply IH|].
      destruct c0 as [? ? ? ? ? [] ?]; try discriminate; reflexivity. }
    apply G. unfold finished. now rewrite A'. }
  rewrite S, T', U, info_messages_app, error_messages_app, terminations_app,
    I, E, T; simpl.
  rewrite app_nil_r. now repeat split.
Qed.

(** X11: a cancellation that reaches the coroutine while it reads the
    output is not swallowed and not logged as an error: the subprocess is
    sent [terminate()] and waited for, and [CancelledError] is raised again
    once it has exited. *)
Theorem cancellation_while_streaming (url : string) (users spawn_rate : Z)
    (run_time : string) (lines : list bytes) (code : Z) :
  Forall (fun d => is_line d = true) lines ->
  let c := run (Started :: map Line lines
                ++ [Throw CancelledError; Exited code])
             (_run_single_test url users spawn_rate run_time) in
  at_ c = Finished (Some CancelledError)
  /\ process c = Some {| returncode := Some code |}
  /\ info_messages (trace c) = flat_map (echo url) lines
  /\ error_messages (trace c) = []
  /\ terminations (trace c) = 1.
Proof.
  intros F c. unfold c.
  change (Started :: map Line lines ++ [Throw CancelledError; Exited code])
    with ((Started :: map Line lines) ++ [Throw CancelledError; Exited code]).
  rewrite run_app.
  destruct (streamed url users spawn_rate run_time lines F)
    as (A & P & U & I & E & T).
  destruct (ends_of_streaming _ code A P) as (_ & _ & Cancel).
  destruct (Cancel CancelledError eq_refl) as (A' & P' & T').
  rewrite T', info_messages_app, error_messages_app, terminations_app,
    I, E, T; simpl.
  rewrite app_nil_r. now repeat split.
Qed.

(** X12: an exception outside [Exception] that reaches the coroutine while
    the launch is pending (a cancellation) is lost: nothing is logged, and
    the [finally] block, reading the unbound [process], replaces it by
    [UnboundLocalError]. *)
Theorem launch_cancellation_lost (url : string) (users spawn_rate : Z)
    (run_time : string) (e : exn) :
  isinstance_Exception e = false ->
  let c := run [Throw e] (_run_single_test url users spawn_rate run_time) in
  at_ c = Finished (Some unbound_process)
  /\ trace c = [Spawn (command url users spawn_rate run_time)].
Proof.
  intros E. unfold run, resume, except_; simpl. rewrite E. now split.
Qed.

End Streaming.

(* ================================================================= *)
(** * Further properties of the orchestrator and of the entry point *)

Section Together.
Context `{Interpreter}.
Open Scope list_scope.

#[local] Arguments decode : simpl never.
#[local] Arguments strip : simpl never.

Lemma Forall_resume_nth (Q : coroutine -> Prop) (i : nat) (ev : event)
    (ts : list coroutine) :
  Forall Q ts ->
  (forall b, nth_error ts i = Some b -> Q (resume ev b)) ->
  Forall Q (resume_nth i ev ts).
Proof.
  revert i. induction ts as [|t ts IH]; intros [|i] F R; simpl;
    try constructor; inversion F; subst; trivial.
  - now apply R.
  - apply IH; [assumption | exact R].
Qed.

Lemma nth_resume_nth (i : nat) (ev : event) (ts : list coroutine) :
  nth_error (resume_nth i ev ts) i = option_map (resume ev) (nth_error ts i).
Proof.
  revert i. induction ts as [|t ts IH]; intros [|i]; simpl; trivial.
Qed.

Lemma raised_after (ev : event) (b : coroutine) :
  raised b = false -> raised_by b (resume ev b) = None ->
  raised (resume ev b) = false.
Proof.
  unfold raised, raised_by. intros R.
  destruct (at_ b) as [| | |pending|r] eqn:A;
    try (destruct (at_ (resume ev b)) as [| | | |[e|]]; congruence).
  rewrite (finished_resume ev b) by (unfold finished; now rewrite A).
  now rewrite A.
Qed.

Lemma agreed_deliver (i : nat) (ev : event) (g : gathering) :
  agreed g -> agreed (deliver i ev g).
Proof.
  unfold agreed, deliver; simpl.
  destruct (gathered g) as [[e|]|] eqn:G; [trivial| |]; intros F.
  - apply Forall_resume_nth; [exact F|]. intros b B.
    rewrite Forall_forall in F. apply nth_error_In in B.
    rewrite (finished_resume ev b); [now apply F|].
    unfold finished. now rewrite (F b B).
  - assert (K : forall b, nth_error (tasks g) i = Some b ->
                raised_by b (resume ev b) = None ->
                Forall (fun t => raised t = false)
                  (resume_nth i ev (tasks g))).
    { intros b B R. apply Forall_resume_nth; [exact F|].
      intros b' B'. rewrite B in B'. injection B' as <-.
      apply raised_after; [|exact R].
      rewrite Forall_forall in F. apply F. now apply nth_error_In in B. }
    rewrite nth_resume_nth.
    destruct (nth_error (tasks g) i) as [b|] eqn:B; simpl.
    + destruct (raised_by b (resume ev b)) eqn:R; [trivial|].
      specialize (K b eq_refl R). unfold settle.
      destruct (forallb finished _) eqn:A; [|exact K].
      rewrite forallb_forall in A. rewrite Forall_forall in K |- *.
      intros t I. specialize (A t I). specialize (K t I).
      unfold finished in A. unfold raised in K.
      now destruct (at_ t) as [| | | |[e|]].
    + apply Forall_resume_nth; [exact F|]. intros b B'. congruence.
Qed.

Lemma agreed_start (urls : list string) (users spawn_rate : Z)
    (run_time : string) :
  agreed (run_concurrent_tests urls users spawn_rate run_time).
Proof.
  unfold agreed, run_concurrent_tests; simpl.
  destruct (unique urls) as [|u l]; simpl; [constructor|].
  apply Forall_forall. intros t [<-|I]; [reflexivity|].
  apply in_map_iff in I as (v & <- & _). reflexivity.
Qed.

Lemma agreed_until (sched : schedule) (g : gathering) :
  agreed g -> agreed (fst (until_gathered sched g)).
Proof.
  revert g. induction sched as [|[i ev] sched IH]; intros g A; simpl.
  - now destruct (gathered g).
  - destruct (gathered g) eqn:G; [exact A|].
    now apply IH, agreed_deliver.
Qed.

(** X15: when line 126 returns, every per-URL coroutine has returned
    [None]: none is still running and none has raised. *)
Theorem gather_returns_when_all_returned (urls : list string)
    (users spawn_rate : Z) (run_time : string) (sched : schedule) :
  let g := fst (until_gathered sched
                  (run_concurrent_tests urls users spawn_rate run_time)) in
  gathered g = Some None ->
  Forall (fun t => at_ t = Finished None) (tasks g).
Proof.
  intros g G.
  assert (A : agreed g) by apply agreed_until, agreed_start.
  unfold agreed in A. now rewrite G in A.
Qed.

Lemma calm_resume (ev : event) (c : coroutine) :
  is_throw ev = false -> calm c -> calm (resume ev c).
Proof.
  intros T [C R]. split; [now apply consistent_resume|].
  destruct c as [u us sr rt [[[rc|]]|] [| | |[e|]|[e|]] tr];
    destruct ev as [|[|b data]|code|e']; try discriminate T;
    unfold consistent in C; unfold returning in *; simpl in *;
    try tauto;
    unfold resume, on_line, wait_, except_, finally_, set_returncode; simpl;
    try exact I;
    (destruct (decode (b :: data)) as [e0|s] eqn:D;
     [apply decode_error in D; subst e0; simpl; exact I
     | destruct (strip s); exact I]).
Qed.

Lemma calm_deliver (i : nat) (ev : event) (g : gathering) :
  is_throw ev = false ->
  Forall calm (tasks g) /\ (forall e, gathered g <> Some (Some e)) ->
  Forall calm (tasks (deliver i ev g))
  /\ (forall e, gathered (deliver i ev g) <> Some (Some e)).
Proof.
  intros T [F G].
  assert (F' : Forall calm (resume_nth i ev (tasks g))).
  { apply Forall_resume_nth; [exact F|]. intros b B.
    apply calm_resume; [exact T|].
    rewrite Forall_forall in F. apply F. now apply nth_error_In in B. }
  split; [exact F'|]. unfold deliver; simpl. intros e.
  destruct (gathered g) as [r|] eqn:Gg; [apply G|].
  rewrite nth_resume_nth.
  destruct (nth_error (tasks g) i) as [b|] eqn:B; simpl; [|discriminate].
  destruct (raised_by b (resume ev b)) as [e'|] eqn:R.
  - exfalso. assert (K : calm (resume ev b)).
    { apply calm_resume; [exact T|]. rewrite Forall_forall in F.
      apply F. now apply nth_error_In in B. }
    destruct K as [_ K]. unfold returning in K. unfold raised_by in R.
    destruct (at_ b); destruct (at_ (resume ev b)) as [| | |[?|]|[?|]];
      solve [discriminate | exact K].
  - unfold settle. destruct (forallb finished _); discriminate.
Qed.

(** X16: as long as the event loop raises nothing into the coroutines (no
    launch fails, no read or wait fails, nothing is cancelled), line 126
    never raises, whatever the subprocesses write, lines that do not decode
    included, and whatever their exit codes. *)
Theorem orchestrator_raises_only_on_loop_errors (urls : list string)
    (users spawn_rate : Z) (run_time : string) (sched : schedule) (e : exn) :
  throws_nothing sched = true ->
  gathered (fst (until_gathered sched
                   (run_concurrent_tests urls users spawn_rate run_time)))
  <> Some (Some e).
Proof.
  intros T.
  assert (S : Forall calm
                (tasks (run_concurrent_tests urls users spawn_rate run_time))
              /\ (forall e, gathered
                              (run_concurrent_tests urls users spawn_rate
                                 run_time) <> Some (Some e))).
  { split.
    - apply Forall_forall. intros t I. simpl in I.
      apply in_map_iff in I as (v & <- & _).
      split; [apply consistent_start | exact I].
    - intros e'. simpl. unfold settle.
      destruct (forallb finished _); discriminate. }
  revert S T. generalize (run_concurrent_tests urls users spawn_rate run_time).
  induction sched as [|[i ev] sched IH]; intros g S T; simpl.
  - destruct (gathered g) eqn:G; simpl; rewrite G; [apply S | discriminate].
  - destruct (gathered g) eqn:G; simpl; [rewrite G; apply S|].
    unfold throws_nothing in T; simpl in T.
    apply andb_true_iff in T as [Tev T].
    apply IH; [|exact T]. apply calm_deliver.
    + now destruct (is_throw ev).
    + split; [apply S | intros e'; rewrite G; discriminate].
Qed.




Lemma asyncio_run_log (main : gathering) (sched : schedule) :
  log (fst (asyncio_run main sched)) = log main.
Proof.
  unfold asyncio_run.
  assert (L : forall s g, log (fst (until_gathered s g)) = log g).
  { induction s as [|[i ev] s IH]; intros g; simpl.
    - now destruct (gathered g).
    - destruct (gathered g); [reflexivity | now rewrite IH]. }
  generalize (L sched main).
  destruct (until_gathered sched main) as [g rest]; simpl. intros E.
  destruct (gathered g); [|exact E].
  now destruct (shutdown rest (cancel_all (tasks g))).
Qed.

Lemma asyncio_run_returned (main : gathering) (sched : schedule) :
  agreed main -> snd (asyncio_run main sched) = Some None ->
  Forall (fun t => at_ t = Finished None) (tasks (fst (asyncio_run main sched))).
Proof.
  intros A. generalize (agreed_until sched main A). unfold asyncio_run.
  destruct (until_gathered sched main) as [g rest]; simpl.
  unfold agreed. destruct (gathered g) as [r|]; [|discriminate]. intros F.
  assert (K : r = None -> shutdown rest (cancel_all (tasks g)) = (tasks g, true)).
  { intros ->. assert (Fin : forallb finished (tasks g) = true).
    { apply forallb_forall. intros t I. rewrite Forall_forall in F.
      unfold finished. now rewrite (F t I). }
    assert (Same : cancel_all (tasks g) = tasks g).
    { unfold cancel_all. rewrite forallb_forall in Fin.
      rewrite <- (map_id (tasks g)) at 2. apply map_ext_in.
      intros t I. unfold cancel. now rewrite (Fin t I). }
    rewrite Same. destruct rest as [|[i ev] rest]; simpl; now rewrite Fin. }
  destruct (shutdown rest (cancel_all (tasks g))) as [ts closed] eqn:S; simpl.
  destruct closed; [|discriminate]. intros [= ->].
  specialize (K eq_refl). injection K as ->. exact F.
Qed.


(** X18: what reaches the caller of [run_break_test], a signal allowed.
    Line 135 stands before the [try] statement: when [LoadTestRunner()]
    cannot make its directory, its exception goes to the caller, with
    nothing logged and nothing launched.  Whatever is raised while
    [asyncio.run] drives the orchestrator reaches the caller only if it is
    neither an [Exception] (logged as a failure) nor [KeyboardInterrupt]
    (logged as an interruption). *)
Theorem what_reaches_caller (w : world) (urls : list string)
    (run_time : option Z) (sched : schedule) :
  let o := run_break_test_on w urls run_time sched in
  (forall e, urls <> [] -> mkdir w "performance_tests" = Some e ->
     returned o = Some (Some e) /\ logged o = [] /\ orchestrator o = None)
  /\ (forall e, returned o = Some (Some e) ->
        mkdir w "performance_tests" = Some e
        \/ (isinstance_Exception e = false /\ e <> KeyboardInterrupt)).
Proof.
  unfold run_break_test_on, LoadTestRunner. split.
  - intros e N M. destruct urls as [|u urls]; [now elim N|].
    rewrite M. now repeat split.
  - intros e. destruct urls as [|u urls]; [discriminate|].
    destruct (mkdir w "performance_tests") as [e0|]; simpl.
    + intros [= <-]. now left.
    + destruct (asyncio_run_on _ _ sched) as [g [[e'|]|]]; simpl;
        try discriminate.
      destruct e'; simpl; intros [= <-]; right; split;
        (reflexivity || discriminate).
Qed.

(** X19: "Load tests completed successfully" is logged only when line 126
    returned: every per-URL coroutine has then returned [None], and the call
    itself returns.  (By X7 the exit codes of the subprocesses are not
    looked at: the message does not say that a load test succeeded.) *)
Theorem success_logged_only_when_all_returned (urls : list string)
    (run_time : option Z) (sched : schedule) :
  let o := run_break_test urls run_time sched in
  In (INFO, "Load tests completed successfully"%string) (logged o) ->
  returned o = Some None
  /\ exists g, orchestrator o = Some g
               /\ Forall (fun t => at_ t = Finished None) (tasks g).
Proof.
  unfold run_break_test, run_break_test_on, LoadTestRunner, asyncio_run_on.
  cbn [undisturbed mkdir sigint].
  destruct urls as [|u urls];
    [simpl; intros [D|[]]; discriminate|].
  set (main := run_concurrent_tests (u :: urls) 1000 1000
                 (str_optional_int run_time)).
  generalize (asyncio_run_returned main sched (agreed_start _ _ _ _)).
  generalize (asyncio_run_log main sched).
  destruct (asyncio_run main sched) as [g result]; simpl. intros L F.
  rewrite L. unfold main; simpl log.
  destruct result as [[e|]|].
  - destruct e; simpl; intros I;
      repeat (destruct I as [I|I]; [discriminate I|]); destruct I.
  - intros _. split; [reflexivity|]. exists g. split; [reflexivity|].
    now apply F.
  - simpl. intros [D|[]]; discriminate.
Qed.

End Together.

(* ================================================================= *)
(** * The further properties at work *)

Lemma exit_code_ignored_witness :
  let start := @_run_single_test cpython "https://example.com" 1000 1000 "30" in
  trace (run [Started; Line []; Exited 0] start)
  = trace (run [Started; Line []; Exited 1] start).
Proof.
  apply (@exit_code_ignored cpython "https://example.com" 1000 1000 "30"
           [Started; Line []; Exited 0] [Started; Line []; Exited 1]).
  reflexivity.
Defined.

Lemma output_logged_in_order_witness :
  info_messages
    (trace (run (Started :: map Line sample_lines)
              (@_run_single_test cpython "https://example.com" 1000 1000 "30")))
  = ["[https://example.com] GET / 200"; "[https://example.com] done"].
Proof.
  destruct (@output_logged_in_order cpython "https://example.com" 1000 1000
              "30" sample_lines) as (_ & I & _).
  - repeat constructor.
  - exact I.
Defined.

Lemma healthy_run_returns_witness :
  let c := run (Started :: map Line sample_lines ++ [Line []; Exited 1])
             (@_run_single_test cpython "https://example.com" 1000 1000 "30") in
  at_ c = Finished None /\ error_messages (trace c) = [].
Proof.
  destruct (@healthy_run_returns cpython "https://example.com" 1000 1000
              "30" sample_lines 1) as (A & _ & _ & E & _).
  - repeat constructor.
  - split; [exact A | exact E].
Defined.

Lemma undecodable_line_stops_streaming_witness :
  let c := run (Started :: map Line sample_lines
                ++ [Line not_utf8; Exited (-15)] ++ map Line sample_lines)
             (@_run_single_test cpython "https://example.com" 1000 1000 "30") in
  at_ c = Finished None /\ terminations (trace c) = 1.
Proof.
  destruct (@undecodable_line_stops_streaming cpython "https://example.com"
              1000 1000 "30" sample_lines not_utf8 (-15) sample_lines)
    as (A & _ & _ & _ & T).
  - repeat constructor.
  - discriminate.
  - reflexivity.
  - split; [exact A | exact T].
Defined.

Lemma cancellation_while_streaming_witness :
  let c := run (Started :: map Line sample_lines
                ++ [Throw CancelledError; Exited (-15)])
             (@_run_single_test cpython "https://example.com" 1000 1000 "30") in
  at_ c = Finished (Some CancelledError) /\ terminations (trace c) = 1.
Proof.
  destruct (@cancellation_while_streaming cpython "https://example.com"
              1000 1000 "30" sample_lines (-15)) as (A & _ & _ & _ & T).
  - repeat constructor.
  - split; [exact A | exact T].
Defined.

Lemma launch_cancellation_lost_witness :
  at_ (run [Throw CancelledError]
         (@_run_single_test cpython "https://example.com" 1000 1000 "30"))
  = Finished (Some unbound_process).
Proof.
  apply (@launch_cancellation_lost cpython "https://example.com" 1000 1000
           "30" CancelledError).
  reflexivity.
Defined.

Lemma streaming_failure_contained_witness :
  let c := run [Started]
             (@_run_single_test cpython "https://example.com" 1000 1000 "30") in
  at_ (run [Throw (OSError "Broken pipe"); Exited (-15)] c) = Finished None.
Proof.
  apply (streaming_failure_contained
           (run [Started]
              (@_run_single_test cpython "https://example.com" 1000 1000 "30"))
           {| returncode := None |} (OSError "Broken pipe") (-15)).
  - left; reflexivity.
  - reflexivity.
  - reflexivity.
Defined.

Lemma what_escapes_witness :
  let c := run [Throw (OSError "No such file or directory")]
             (@_run_single_test cpython "https://example.com" 1000 1000 "30") in
  (process c = None /\ unbound_process = unbound_process)
  \/ isinstance_Exception unbound_process = false
  \/ reaped_last c.
Proof.
  apply (@what_escapes cpython "https://example.com" 1000 1000 "30"
           [Throw (OSError "No such file or directory")] unbound_process).
  reflexivity.
Defined.

Lemma gather_returns_when_all_returned_witness :
  let g := fst (until_gathered both_exit
                  (@run_concurrent_tests cpython two_urls 1000 1000 "30")) in
  gathered g = Some None
  /\ Forall (fun t => at_ t = Finished None) (tasks g).
Proof.
  split; [reflexivity|].
  apply (@gather_returns_when_all_returned cpython two_urls 1000 1000 "30"
           both_exit).
  reflexivity.
Defined.

Lemma orchestrator_raises_only_on_loop_errors_witness :
  gathered
    (fst (until_gathered
            [(0, Started); (0, Line not_utf8); (0, Exited (-15))]
            (@run_concurrent_tests cpython ["https://a.example"] 1000 1000 "30")))
  <> Some (Some (UnicodeDecodeError "'utf-8' codec can't decode bytes")).
Proof.
  apply (@orchestrator_raises_only_on_loop_errors cpython).
  reflexivity.
Defined.


Lemma what_reaches_caller_witness :
  returned (@run_break_test_on cpython read_only two_urls (Some 30%Z) both_exit)
  = Some (Some (OSError "[Errno 13] Permission denied: 'performance_tests'"))
  /\ logged (@run_break_test_on cpython read_only two_urls (Some 30%Z) both_exit)
     = []
  /\ orchestrator
       (@run_break_test_on cpython read_only two_urls (Some 30%Z) both_exit)
     = None.
Proof.
  apply (proj1 (@what_reaches_caller cpython read_only two_urls (Some 30%Z)
                  both_exit)).
  - discriminate.
  - reflexivity.
Defined.

(** A signal while both subprocesses run: both coroutines are cancelled
    and terminate their subprocess; the first to finish settles line 126,
    [asyncio.run] raises [KeyboardInterrupt] and cancels the other one for
    the second time, and line 146 logs the interruption. *)
Lemma interruption_is_logged :
  let o := @run_break_test_on cpython interrupted_after_two two_urls
             (Some 30%Z) [(0, Started); (1, Started); (0, Exited (-15))] in
  returned o = Some None
  /\ logged o
     = [ (INFO, "Starting concurrent tests for 2 URLs");
         (INFO, "Tests interrupted by user") ]%string
  /\ option_map (fun g => map at_ (tasks g)) (orchestrator o)
     = Some [Finished (Some CancelledError); Finished (Some CancelledError)]
  /\ option_map (fun g => map process (tasks g)) (orchestrator o)
     = Some [ Some {| returncode := Some (-15)%Z |};
              Some {| returncode := None |} ].
Proof. repeat split. Qed.

Lemma success_logged_only_when_all_returned_witness :
  returned (@run_break_test cpython two_urls (Some 30%Z) both_exit)
  = Some None.
Proof.
  apply (@success_logged_only_when_all_returned cpython two_urls (Some 30%Z)
           both_exit).
  simpl. right. left. reflexivity.
Defined.
